(** * GenerAfrica: session protocol, playback scheduler and MIDI mapping store

    A shallow embedding of [lyria-client.js] (class [LyriaClient]),
    [audio-player.js] (class [AudioPlayer]) and [midi-manager.js]
    (class [MidiManager]), followed by the properties of the design
    document that concern them.

    Conventions of the embedding.
    - A JS number is a rational [Q] (or an integer [Z], [N] where the code
      only ever produces integers).  [Math.max], [Math.min] and [Math.round]
      are exact on finite doubles, so for them the model is exact; sums of
      clock values are taken in exact arithmetic.  [NaN] and the infinities
      are outside the model.
    - An object field that may be [undefined] is an [option].
    - The browser objects the classes drive (the WebSocket, the AudioContext
      with its nodes, the timer table, localStorage) are part of the state;
      every call made on them is recorded there. *)

From Stdlib Require Import QArith Qround Lqa ZArith List String Ascii.
From Stdlib Require Import DecimalString DecimalN.
From stdpp Require Import gmap strings list fin_maps.

(** ** JavaScript numbers *)

Module Js.

Definition ltb (a b : Q) : bool := negb (Qle_bool b a).

(** [Math.min(a, b)] and [Math.max(a, b)] on finite numbers. *)
Definition Math_min (a b : Q) : Q := if Qle_bool a b then a else b.
Definition Math_max (a b : Q) : Q := if Qle_bool b a then a else b.

(** [Math.round(x)]: the integer nearest to [x], ties towards +infinity. *)
Definition Math_round (x : Q) : Z := Qfloor (x + (1 # 2)).

(** Truthiness of a number that may be [undefined]:
    [undefined] and [0] are falsy. *)
Definition truthy_number (x : option Q) : bool :=
  match x with
  | None => false
  | Some q => negb (Qeq_bool q 0)
  end.

(** Truthiness of a string that may be [undefined]:
    [undefined] and the empty string are falsy. *)
Definition truthy_string (x : option string) : bool :=
  match x with
  | None | Some EmptyString => false
  | Some _ => true
  end.

(** The decimal rendering of a non-negative integer in a template literal. *)
Definition decimal (n : N) : string := NilEmpty.string_of_uint (N.to_uint n).

(** The part of [s] before its first [sep], and the part after it. *)
Fixpoint before (sep : ascii) (s : string) : string :=
  match s with
  | EmptyString => EmptyString
  | String a r => if Ascii.eqb a sep then EmptyString else String a (before sep r)
  end.

Fixpoint after (sep : ascii) (s : string) : string :=
  match s with
  | EmptyString => EmptyString
  | String a r => if Ascii.eqb a sep then r else after sep r
  end.

End Js.

(** ** The browser's [atob] *)

Module Base64.

Definition is_whitespace (a : ascii) : bool :=
  let n := N_of_ascii a in
  ((n =? 9) || (n =? 10) || (n =? 12) || (n =? 13) || (n =? 32))%N.

(** Value of a character of the base64 alphabet. *)
Definition sextet (a : ascii) : option N :=
  let n := N_of_ascii a in
  if ((65 <=? n) && (n <=? 90))%N then Some (n - 65)%N
  else if ((97 <=? n) && (n <=? 122))%N then Some (n - 71)%N
  else if ((48 <=? n) && (n <=? 57))%N then Some (n + 4)%N
  else if (n =? 43)%N then Some 62%N
  else if (n =? 47)%N then Some 63%N
  else None.

Definition strip_whitespace (s : list ascii) : list ascii :=
  filter (fun a => is_whitespace a = false) s.

(** Removes one or two trailing ['='] when the length is a multiple of 4. *)
Definition strip_padding (s : list ascii) : list ascii :=
  if (length s mod 4 =? 0)%nat then
    match rev s with
    | "="%char :: "="%char :: r => rev r
    | "="%char :: r => rev r
    | _ => s
    end
  else s.

Fixpoint sextets (s : list ascii) : option (list N) :=
  match s with
  | [] => Some []
  | a :: r =>
      match sextet a, sextets r with
      | Some v, Some vs => Some (v :: vs)
      | _, _ => None
      end
  end.

Definition octet (n : N) : ascii := ascii_of_N (n mod 256).

(** Groups of four sextets give three octets; a final group of two gives one
    octet and a final group of three gives two (the spare bits are dropped). *)
Fixpoint octets (fuel : nat) (v : list N) : list ascii :=
  match fuel with
  | O => []
  | S fuel' =>
      match v with
      | a :: b :: c :: d :: r =>
          let w := (a * 262144 + b * 4096 + c * 64 + d)%N in
          octet (w / 65536) :: octet (w / 256) :: octet w :: octets fuel' r
      | [a; b; c] =>
          let w := (a * 4096 + b * 64 + c)%N in
          [octet (w / 1024); octet (w / 4)]
      | [a; b] =>
          let w := (a * 64 + b)%N in
          [octet (w / 16)]
      | _ => []
      end
  end.

(** [atob(s)]: [None] stands for the [InvalidCharacterError] it throws. *)
Definition atob (s : string) : option string :=
  let body := strip_padding (strip_whitespace (list_ascii_of_string s)) in
  if (length body mod 4 =? 1)%nat then None
  else
    match sextets body with
    | None => None
    | Some v => Some (string_of_list_ascii (octets (length v) v))
    end.

End Base64.

(** ** lyria-client.js *)

Module LyriaClient.

Definition LYRIA_MODEL : string := "models/lyria-realtime-exp".

(** *** Outbound messages *)

Record WeightedPrompt := mkWeightedPrompt {
  wp_text : option string;
  wp_weight : Q
}.

(** The [configObj] built by [setMusicGenerationConfig]; an absent field is
    [None] and is left out of the JSON text. *)
Record ConfigObj := mkConfigObj {
  co_bpm : option Z;
  co_density : option Q;
  co_brightness : option Q;
  co_scale : option string;
  co_muteDrums : option bool;
  co_muteBass : option bool;
  co_onlyBassAndDrums : option bool;
  co_musicGenerationMode : option string
}.

Inductive PlaybackToken := PLAY | PAUSE | STOP | RESET_CONTEXT.

Inductive OutMsg :=
| Setup (model : string)
| ClientContent (weightedPrompts : list WeightedPrompt)
| MusicGenerationConfig (configObj : ConfigObj)
| PlaybackControl (token : PlaybackToken).

(** *** Arguments of the update calls *)

(** The [config] argument and the retained [currentConfig]. *)
Record Config := mkConfig {
  bpm : option Q;
  density : option Q;
  brightness : option Q;
  scale : option string;
  muteDrums : option bool;
  muteBass : option bool;
  onlyBassAndDrums : option bool;
  mode : option string
}.

(** A prompt is a bare string or an object [{text, weight}]. *)
Inductive Prompt :=
| PString (s : string)
| PObject (text : option string) (weight : option Q).

(** [setWeightedPrompts] takes an array, or one prompt that it wraps. *)
Inductive PromptsArg :=
| Single (p : Prompt)
| Array (ps : list Prompt).

(** *** Inbound messages, after [JSON.parse] *)

Record Chunk := mkChunk { data : option string }.

Record ServerContent := mkServerContent {
  audioChunks : option (list Chunk);
  generationState : option string
}.

Record ErrorObj := mkErrorObj { message : option string }.

Record InMsg := mkInMsg {
  setupComplete : bool;            (* [message.setupComplete !== undefined] *)
  serverContent : option ServerContent;
  filteredPrompt : bool;           (* truthiness of the field *)
  warning : bool;                  (* truthiness of the field *)
  error : option ErrorObj
}.

(** *** The client *)

Inductive ReadyState := CONNECTING | OPEN | CLOSING | CLOSED.

(** The socket: its state and the frames handed to [ws.send], oldest first. *)
Record WebSocket := mkWebSocket {
  readyState : ReadyState;
  wire : list OutMsg
}.

(** Which of the four callback slots hold a function. *)
Record Callbacks := mkCallbacks {
  onAudioChunk : bool;
  onStateChange : bool;
  onError : bool;
  onClose : bool
}.

(** A call made by the client on a registered callback or on the pending
    [connect()] promise. *)
Inductive Event :=
| AudioChunk (bytes : list Byte.byte)
| StateChange (state : string)
| Error (msg : string)
| ConnectResolved.

Record Client := mkClient {
  ws : option WebSocket;
  isConnected : bool;
  isPlaying : bool;
  isSetupComplete : bool;
  messageQueue : list OutMsg;
  connectResolve : bool;           (* the slot is non-null *)
  callbacks : Callbacks;
  currentConfig : Config;
  currentPrompts : list Prompt;
  fired : list Event               (* calls made so far, oldest first *)
}.

Definition initialConfig : Config :=
  mkConfig (Some (120 # 1)) (Some (1 # 2)) (Some (1 # 2))
           (Some "SCALE_UNSPECIFIED"%string)
           (Some false) (Some false) (Some false) None.

Definition constructor : Client :=
  mkClient None false false false [] false
           (mkCallbacks false false false false) initialConfig [] [].

Definition set_ws (w : option WebSocket) (c : Client) : Client :=
  mkClient w (isConnected c) (isPlaying c) (isSetupComplete c)
           (messageQueue c) (connectResolve c) (callbacks c)
           (currentConfig c) (currentPrompts c) (fired c).

Definition set_isConnected (b : bool) (c : Client) : Client :=
  mkClient (ws c) b (isPlaying c) (isSetupComplete c)
           (messageQueue c) (connectResolve c) (callbacks c)
           (currentConfig c) (currentPrompts c) (fired c).

Definition set_isPlaying (b : bool) (c : Client) : Client :=
  mkClient (ws c) (isConnected c) b (isSetupComplete c)
           (messageQueue c) (connectResolve c) (callbacks c)
           (currentConfig c) (currentPrompts c) (fired c).

Definition set_isSetupComplete (b : bool) (c : Client) : Client :=
  mkClient (ws c) (isConnected c) (isPlaying c) b
           (messageQueue c) (connectResolve c) (callbacks c)
           (currentConfig c) (currentPrompts c) (fired c).

Definition set_messageQueue (q : list OutMsg) (c : Client) : Client :=
  mkClient (ws c) (isConnected c) (isPlaying c) (isSetupComplete c)
           q (connectResolve c) (callbacks c)
           (currentConfig c) (currentPrompts c) (fired c).

Definition set_connectResolve (b : bool) (c : Client) : Client :=
  mkClient (ws c) (isConnected c) (isPlaying c) (isSetupComplete c)
           (messageQueue c) b (callbacks c)
           (currentConfig c) (currentPrompts c) (fired c).

Definition set_currentConfig (k : Config) (c : Client) : Client :=
  mkClient (ws c) (isConnected c) (isPlaying c) (isSetupComplete c)
           (messageQueue c) (connectResolve c) (callbacks c)
           k (currentPrompts c) (fired c).

Definition set_currentPrompts (ps : list Prompt) (c : Client) : Client :=
  mkClient (ws c) (isConnected c) (isPlaying c) (isSetupComplete c)
           (messageQueue c) (connectResolve c) (callbacks c)
           (currentConfig c) ps (fired c).

Definition fire (e : Event) (c : Client) : Client :=
  mkClient (ws c) (isConnected c) (isPlaying c) (isSetupComplete c)
           (messageQueue c) (connectResolve c) (callbacks c)
           (currentConfig c) (currentPrompts c) (fired c ++ [e]).

(** [this.ws && this.ws.readyState === WebSocket.OPEN] *)
Definition ws_open (c : Client) : bool :=
  match ws c with
  | Some w => match readyState w with OPEN => true | _ => false end
  | None => false
  end.

(** [send(message)] *)
Definition send (message : OutMsg) (c : Client) : Client * bool :=
  match ws c with
  | Some w =>
      match readyState w with
      | OPEN => (set_ws (Some (mkWebSocket OPEN (wire w ++ [message]))) c, true)
      | _ => (set_messageQueue (messageQueue c ++ [message]) c, false)
      end
  | None => (set_messageQueue (messageQueue c ++ [message]) c, false)
  end.

(** [processQueue()]: the [while] loop, one iteration per unit of fuel;
    [None] when the fuel runs out before the queue is empty. *)
Fixpoint processQueue (fuel : nat) (c : Client) : option Client :=
  match messageQueue c with
  | [] => Some c
  | message :: rest =>
      match fuel with
      | O => None
      | S fuel' => processQueue fuel' (fst (send message (set_messageQueue rest c)))
      end
  end.

Definition notifyStateChange (state : string) (c : Client) : Client :=
  if onStateChange (callbacks c) then fire (StateChange state) c else c.

Definition notifyError (msg : string) (c : Client) : Client :=
  if onError (callbacks c) then fire (Error msg) c else c.

Definition sendSetupMessage (c : Client) : Client :=
  fst (send (Setup LYRIA_MODEL) c).

(** [connect()] up to the creation of the socket. *)
Definition connect (c : Client) : Client :=
  set_connectResolve true (set_ws (Some (mkWebSocket CONNECTING [])) c).

(** The [onopen] handler: the socket has become [OPEN]. *)
Definition onopen (c : Client) : Client :=
  let c1 :=
    match ws c with
    | Some w => set_ws (Some (mkWebSocket OPEN (wire w))) c
    | None => c
    end in
  sendSetupMessage (notifyStateChange "connecting" (set_isConnected true c1)).

(** [base64ToArrayBuffer(base64)]; [None] when [atob] throws. *)
Definition base64ToArrayBuffer (base64 : string) : option (list Byte.byte) :=
  match Base64.atob base64 with
  | Some binaryString => Some (map byte_of_ascii (list_ascii_of_string binaryString))
  | None => None
  end.

(** The loop over [message.serverContent.audioChunks].  The boolean is
    [false] when [atob] threw: the chunks before it were delivered, and
    control goes to the [catch] of [handleMessage]. *)
Fixpoint forAudioChunks (chunks : list Chunk) (c : Client) : Client * bool :=
  match chunks with
  | [] => (c, true)
  | chunk :: rest =>
      if Js.truthy_string (data chunk) && onAudioChunk (callbacks c) then
        match data chunk with
        | Some d =>
            match base64ToArrayBuffer d with
            | Some audioData => forAudioChunks rest (fire (AudioChunk audioData) c)
            | None => (c, false)
            end
        | None => forAudioChunks rest c
        end
      else forAudioChunks rest c
  end.

(** The [if / else if] chain on [message.serverContent.generationState]. *)
Definition onGenerationState (state : string) (c : Client) : Client :=
  if String.eqb state "PLAYING" then
    notifyStateChange "playing" (set_isPlaying true c)
  else if String.eqb state "PAUSED" then
    notifyStateChange "paused" (set_isPlaying false c)
  else if String.eqb state "STOPPED" then
    notifyStateChange "stopped" (set_isPlaying false c)
  else c.

Definition errorText (e : ErrorObj) : string :=
  match message e with
  | Some m => if Js.truthy_string (Some m) then m else "Server error"
  | None => "Server error"
  end.

(** [handleMessage(data)].  [data] is [None] when [JSON.parse] throws; the
    [catch] only logs.  The outer [option] is [None] when the fuel given to
    [processQueue] runs out. *)
Definition handleMessage (fuel : nat) (data : option InMsg) (c : Client)
  : option Client :=
  match data with
  | None => Some c
  | Some message =>
      if setupComplete message then
        let c1 := notifyStateChange "connected" (set_isSetupComplete true c) in
        match processQueue fuel c1 with
        | None => None
        | Some c2 =>
            if connectResolve c2
            then Some (set_connectResolve false (fire ConnectResolved c2))
            else Some c2
        end
      else
        let '(c1, ok) :=
          match serverContent message with
          | Some sc =>
              match audioChunks sc with
              | Some chunks => forAudioChunks chunks c
              | None => (c, true)
              end
          | None => (c, true)
          end in
        if negb ok then Some c1
        else
          let c2 :=
            match serverContent message with
            | Some sc =>
                if Js.truthy_string (generationState sc)
                then match generationState sc with
                     | Some state => onGenerationState state c1
                     | None => c1
                     end
                else c1
            | None => c1
            end in
          let c3 :=
            if filteredPrompt message
            then notifyError "Prompt was filtered by safety system" c2
            else c2 in
          (* [message.warning] is only logged *)
          let c4 :=
            match error message with
            | Some e => notifyError (errorText e) c3
            | None => c3
            end in
          Some c4
  end.

(** [setWeightedPrompts(prompts)] *)
Definition normalizePrompt (p : Prompt) : WeightedPrompt :=
  match p with
  | PString s => mkWeightedPrompt (Some s) 1
  | PObject text weight =>
      mkWeightedPrompt text
        (match weight with
         | Some w => if Js.truthy_number (Some w) then w else 1
         | None => 1
         end)
  end.

Definition setWeightedPrompts (prompts : PromptsArg) (c : Client) : Client * bool :=
  let prompts' := match prompts with Single p => [p] | Array ps => ps end in
  send (ClientContent (map normalizePrompt prompts'))
       (set_currentPrompts prompts' c).

(** [{ ...this.currentConfig, ...config }] *)
Definition spread (current config : Config) : Config :=
  let pick {A} (new old : option A) : option A :=
    match new with Some v => Some v | None => old end in
  mkConfig (pick (bpm config) (bpm current))
           (pick (density config) (density current))
           (pick (brightness config) (brightness current))
           (pick (scale config) (scale current))
           (pick (muteDrums config) (muteDrums current))
           (pick (muteBass config) (muteBass current))
           (pick (onlyBassAndDrums config) (onlyBassAndDrums current))
           (pick (mode config) (mode current)).

Definition clamp01 (x : Q) : Q := Js.Math_max 0 (Js.Math_min 1 x).

(** The [configObj] assembled field by field from the argument. *)
Definition buildConfigObj (config : Config) : ConfigObj :=
  mkConfigObj (option_map Js.Math_round (bpm config))
              (option_map clamp01 (density config))
              (option_map clamp01 (brightness config))
              (scale config)
              (muteDrums config)
              (muteBass config)
              (onlyBassAndDrums config)
              (mode config).

(** [setMusicGenerationConfig(config)] *)
Definition setMusicGenerationConfig (config : Config) (c : Client) : Client * bool :=
  let c1 := set_currentConfig (spread (currentConfig c) config) c in
  send (MusicGenerationConfig (buildConfigObj config)) c1.

Definition play (c : Client) : Client * bool := send (PlaybackControl PLAY) c.
Definition pause (c : Client) : Client * bool := send (PlaybackControl PAUSE) c.
Definition stop (c : Client) : Client * bool := send (PlaybackControl STOP) c.
Definition resetContext (c : Client) : Client * bool :=
  send (PlaybackControl RESET_CONTEXT) c.

(** [on(event, callback)] *)
Definition on (event : string) (c : Client) : Client :=
  let cb := callbacks c in
  let cb' :=
    if String.eqb event "audioChunk" then
      mkCallbacks true (onStateChange cb) (onError cb) (onClose cb)
    else if String.eqb event "stateChange" then
      mkCallbacks (onAudioChunk cb) true (onError cb) (onClose cb)
    else if String.eqb event "error" then
      mkCallbacks (onAudioChunk cb) (onStateChange cb) true (onClose cb)
    else if String.eqb event "close" then
      mkCallbacks (onAudioChunk cb) (onStateChange cb) (onError cb) true
    else cb in
  mkClient (ws c) (isConnected c) (isPlaying c) (isSetupComplete c)
           (messageQueue c) (connectResolve c) cb'
           (currentConfig c) (currentPrompts c) (fired c).

(** [disconnect()] *)
Definition disconnect (c : Client) : Client :=
  mkClient None false false false
           (messageQueue c) (connectResolve c) (callbacks c)
           (currentConfig c) (currentPrompts c) (fired c).

(** The calls of a page that end in [send]. *)
Inductive Call :=
| CallSend (message : OutMsg)
| CallSetWeightedPrompts (prompts : PromptsArg)
| CallSetMusicGenerationConfig (config : Config)
| CallPlay
| CallPause
| CallStop
| CallResetContext.

Definition call (c : Client) (k : Call) : Client * bool :=
  match k with
  | CallSend message => send message c
  | CallSetWeightedPrompts prompts => setWeightedPrompts prompts c
  | CallSetMusicGenerationConfig config => setMusicGenerationConfig config c
  | CallPlay => play c
  | CallPause => pause c
  | CallStop => stop c
  | CallResetContext => resetContext c
  end.

(** Successive calls, each on the client the one before left. *)
Definition calls (c : Client) (ks : list Call) : Client :=
  foldl (λ c k, fst (call c k)) c ks.

(** The [onmessage] handler on successive frames; every frame gets the
    same fuel. *)
Fixpoint handleMessages (fuel : nat) (frames : list (option InMsg)) (c : Client)
  : option Client :=
  match frames with
  | [] => Some c
  | data :: rest =>
      match handleMessage fuel data c with
      | Some c' => handleMessages fuel rest c'
      | None => None
      end
  end.

End LyriaClient.

(** ** audio-player.js *)

Module AudioPlayer.

Local Open Scope Q_scope.

(** *** The gain [AudioParam] *)

(** A scheduled automation event. *)
Inductive Automation :=
| SetValueAtTime (value time : Q)
| LinearRampToValueAtTime (value time : Q).

Definition eventTime (e : Automation) : Q :=
  match e with SetValueAtTime _ t | LinearRampToValueAtTime _ t => t end.

Definition sameKind (a b : Automation) : bool :=
  match a, b with
  | SetValueAtTime _ _, SetValueAtTime _ _ => true
  | LinearRampToValueAtTime _ _, LinearRampToValueAtTime _ _ => true
  | _, _ => false
  end.

(** [intrinsic] is what the [value] setter stored, [current] is what the
    [value] getter returns (the value of the last rendered quantum), and
    [events] is the automation timeline, ordered by time. *)
Record AudioParam := mkAudioParam {
  intrinsic : Q;
  current : Q;
  events : list Automation
}.

(** Drops every event scheduled at or after [t]. *)
Definition cancelScheduledValues (t : Q) (g : AudioParam) : AudioParam :=
  mkAudioParam (intrinsic g) (current g)
    (List.filter (fun e => Js.ltb (eventTime e) t) (events g)).

(** An event goes after those that are not later than it; it replaces an
    event of the same kind at the same time. *)
Fixpoint insertEvent (e : Automation) (es : list Automation) : list Automation :=
  match es with
  | [] => [e]
  | x :: r =>
      if Js.ltb (eventTime e) (eventTime x) then e :: x :: r
      else if sameKind e x && Qeq_bool (eventTime e) (eventTime x) then e :: r
      else x :: insertEvent e r
  end.

Definition setValueAtTime (v t : Q) (g : AudioParam) : AudioParam :=
  mkAudioParam (intrinsic g) (current g) (insertEvent (SetValueAtTime v t) (events g)).

Definition linearRampToValueAtTime (v t : Q) (g : AudioParam) : AudioParam :=
  mkAudioParam (intrinsic g) (current g)
    (insertEvent (LinearRampToValueAtTime v t) (events g)).

(** The value the timeline [es] gives at time [t], coming from value [v0]
    reached at time [t0]. *)
Fixpoint valueFrom (v0 t0 : Q) (es : list Automation) (t : Q) : Q :=
  match es with
  | [] => v0
  | SetValueAtTime v te :: r =>
      if Js.ltb t te then v0 else valueFrom v te r t
  | LinearRampToValueAtTime v te :: r =>
      if Js.ltb t te then v0 + (v - v0) * ((t - t0) / (te - t0))
      else valueFrom v te r t
  end.

Definition valueAt (g : AudioParam) (t : Q) : Q :=
  valueFrom (intrinsic g) 0 (events g) t.

(** *** The audio context *)

(** A call [source.start(when)]: the source, the context time of the call,
    the requested start and the duration of the source's buffer. *)
Record Segment := mkSegment {
  seg_source : nat;
  seg_submitted : Q;
  seg_start : Q;
  seg_duration : Q
}.

Definition seg_end (s : Segment) : Q := seg_start s + seg_duration s.

Record AudioContext := mkAudioContext {
  currentTime : Q;
  gain : AudioParam;               (* [gainNode.gain] *)
  created : nat;                   (* buffer sources created so far *)
  started : list Segment;          (* [start] calls, oldest first *)
  stopped : gset nat;              (* sources on which [stop()] was called *)
  disconnected : gset nat          (* sources on which [disconnect()] was called *)
}.

Record AudioBuffer := mkAudioBuffer {
  numberOfFrames : nat;
  channelData0 : list Q;
  channelData1 : list Q
}.

(** An entry of [scheduledBuffers]. *)
Record Item := mkItem {
  source : nat;
  endTime : Q
}.

Record Player := mkPlayer {
  audioContext : option AudioContext;
  gainNode : bool;                 (* the field is non-null *)
  isStopping : bool;
  nextStartTime : Q;
  scheduledBuffers : list Item;
  stopTimeout : option nat         (* [_stopTimeout] *)
}.

Definition sampleRate : Q := 48000 # 1.
Definition channels : nat := 2%nat.

Definition constructor : Player := mkPlayer None false false 0 [] None.

(** [init()] *)
Definition init (p : Player) : Player :=
  match audioContext p with
  | Some _ => p
  | None =>
      mkPlayer (Some (mkAudioContext 0 (mkAudioParam 1 1 []) 0%nat [] ∅ ∅)) true
               (isStopping p) (nextStartTime p) (scheduledBuffers p) (stopTimeout p)
  end.

Definition set_gain (g : AudioParam) (ctx : AudioContext) : AudioContext :=
  mkAudioContext (currentTime ctx) g (created ctx) (started ctx)
                 (stopped ctx) (disconnected ctx).

(** [source.stop(); source.disconnect()] on every item of [items]. *)
Definition stopAndDisconnect (items : list Item) (ctx : AudioContext) : AudioContext :=
  let ids : gset nat := list_to_set (map source items) in
  mkAudioContext (currentTime ctx) (gain ctx) (created ctx) (started ctx)
                 (stopped ctx ∪ ids) (disconnected ctx ∪ ids).

(** [source.disconnect()] on every item of [items]. *)
Definition disconnectAll (items : list Item) (ctx : AudioContext) : AudioContext :=
  let ids : gset nat := list_to_set (map source items) in
  mkAudioContext (currentTime ctx) (gain ctx) (created ctx) (started ctx)
                 (stopped ctx) (disconnected ctx ∪ ids).

(** [cleanupBuffers(currentTime)] *)
Definition cleanupBuffers (now : Q) (p : Player) : Player :=
  let finished := List.filter (fun item => Js.ltb (endTime item) now) (scheduledBuffers p) in
  let kept := List.filter (fun item => negb (Js.ltb (endTime item) now)) (scheduledBuffers p) in
  mkPlayer (option_map (disconnectAll finished) (audioContext p)) (gainNode p)
           (isStopping p) (nextStartTime p) kept (stopTimeout p).

Definition duration (b : AudioBuffer) : Q :=
  inject_Z (Z.of_nat (numberOfFrames b)) / sampleRate.

Definition leadIn : Q := 5 # 100.

(** [scheduleBuffer(audioBuffer)], with the context the caller checked. *)
Definition scheduleBuffer (audioBuffer : AudioBuffer) (ctx : AudioContext) (p : Player)
  : Player :=
  let now := currentTime ctx in
  let start := if Js.ltb (nextStartTime p) now then now + leadIn else nextStartTime p in
  let src := created ctx in
  let ctx' :=
    mkAudioContext now (gain ctx) (S src)
      (started ctx ++ [mkSegment src now start (duration audioBuffer)])
      (stopped ctx) (disconnected ctx) in
  let next := start + duration audioBuffer in
  cleanupBuffers now
    (mkPlayer (Some ctx') (gainNode p) (isStopping p) next
              (scheduledBuffers p ++ [mkItem src next]) (stopTimeout p)).

(** The elements of [new Int16Array(pcmData)], little-endian. *)
Fixpoint int16Array (pcmData : list Byte.byte) : list Z :=
  match pcmData with
  | lo :: hi :: r =>
      let u := (Z.of_N (Byte.to_N lo) + 256 * Z.of_N (Byte.to_N hi))%Z in
      (if (u <? 32768)%Z then u else (u - 65536)%Z) :: int16Array r
  | _ => []
  end.

Fixpoint deinterleave (samples : list Q) : list Q * list Q :=
  match samples with
  | l :: r :: rest =>
      let '(ls, rs) := deinterleave rest in (l :: ls, r :: rs)
  | _ => ([], [])
  end.

Inductive Completion :=
| Normal (p : Player)
| Throw (err : string).

(** [processAudioChunk(pcmData)].  The typed-array constructor throws on an
    odd byte length and [createBuffer] throws on a length of zero frames;
    both happen before anything is modified. *)
Definition processAudioChunk (pcmData : list Byte.byte) (p : Player) : Completion :=
  match audioContext p with
  | None => Normal p
  | Some ctx =>
      if isStopping p then Normal p
      else if negb (Nat.even (length pcmData)) then Throw "RangeError"
      else
        let float32Array := map (fun s => inject_Z s / (32768 # 1)) (int16Array pcmData) in
        let numSamples := (length float32Array / channels)%nat in
        if (numSamples =? 0)%nat then Throw "NotSupportedError"
        else
          let '(leftChannel, rightChannel) := deinterleave float32Array in
          Normal (scheduleBuffer (mkAudioBuffer numSamples leftChannel rightChannel) ctx p)
  end.


(** *** The page: the player, the wall clock and the timer table *)

Record Timer := mkTimer {
  timer_id : nat;
  deadline : Q                     (* wall-clock milliseconds *)
}.

Record Page := mkPage {
  player : Player;
  wall : Q;                        (* wall-clock milliseconds *)
  nextTimer : nat;                 (* the handle [setTimeout] returns next *)
  timers : list Timer              (* pending timeouts *)
}.

Definition load : Page := mkPage constructor 0 1%nat [].

Definition setTimeout (delay : Q) (w : Page) : Page * nat :=
  (mkPage (player w) (wall w) (S (nextTimer w))
          (timers w ++ [mkTimer (nextTimer w) (wall w + Js.Math_max 0 delay)]),
   nextTimer w).

Definition clearTimeout (id : nat) (w : Page) : Page :=
  mkPage (player w) (wall w) (nextTimer w)
         (List.filter (fun t => negb (timer_id t =? id)%nat) (timers w)).

Definition set_player (p : Player) (w : Page) : Page :=
  mkPage p (wall w) (nextTimer w) (timers w).

(** The block shared by the timeout callback of [stop] and by [hardStop]:
    stop every tracked source, forget them, and put the gain back to 1. *)
Definition releaseAll (p : Player) : Player :=
  let ctx1 := option_map (stopAndDisconnect (scheduledBuffers p)) (audioContext p) in
  let ctx2 :=
    match ctx1 with
    | Some ctx =>
        if gainNode p then
          Some (set_gain (setValueAtTime 1 (currentTime ctx)
                            (cancelScheduledValues (currentTime ctx) (gain ctx))) ctx)
        else Some ctx
    | None => None
    end in
  mkPlayer ctx2 (gainNode p) (isStopping p) 0 [] (stopTimeout p).

(** The callback [stop] hands to [setTimeout]. *)
Definition stopCallback (p : Player) : Player :=
  let p' := releaseAll p in
  mkPlayer (audioContext p') (gainNode p') false (nextStartTime p')
           (scheduledBuffers p') (stopTimeout p').

(** [stop(fadeDuration)].  [linearRampToValueAtTime] throws on a negative
    end time; the call then ends with [isStopping] set and no timeout. *)
Definition stop (fadeDuration : Q) (w : Page) : Page :=
  let p := player w in
  match audioContext p with
  | None => w
  | Some ctx =>
      if negb (gainNode p) then w
      else
        let now := currentTime ctx in
        let g1 := cancelScheduledValues now (gain ctx) in
        let g2 := setValueAtTime (current g1) now g1 in
        if Js.ltb (now + fadeDuration) 0 then
          set_player (mkPlayer (Some (set_gain g2 ctx)) (gainNode p) true
                               (nextStartTime p) (scheduledBuffers p) (stopTimeout p)) w
        else
          let g3 := linearRampToValueAtTime 0 (now + fadeDuration) g2 in
          let '(w1, id) := setTimeout (fadeDuration * (1000 # 1)) w in
          set_player (mkPlayer (Some (set_gain g3 ctx)) (gainNode p) true
                               (nextStartTime p) (scheduledBuffers p) (Some id)) w1
  end.

(** [hardStop()] *)
Definition hardStop (w : Page) : Page :=
  let w1 :=
    match stopTimeout (player w) with
    | Some id =>
        let p := player w in
        set_player (mkPlayer (audioContext p) (gainNode p) (isStopping p)
                             (nextStartTime p) (scheduledBuffers p) None)
                   (clearTimeout id w)
    | None => w
    end in
  let p1 := player w1 in
  let p2 := mkPlayer (audioContext p1) (gainNode p1) false (nextStartTime p1)
                     (scheduledBuffers p1) (stopTimeout p1) in
  set_player (releaseAll p2) w1.

(** *** What can happen on the page *)

Inductive Event :=
| Elapse (wall_ms audio_s : Q)     (* both clocks move on *)
| Chunk (pcmData : list Byte.byte) (* [processAudioChunk(pcmData)] *)
| Stop (fadeDuration : Q)          (* [stop(fadeDuration)] *)
| HardStop                         (* [hardStop()] *)
| Fire (timer : nat).              (* a pending timeout runs its callback *)

(** The audio clock moves on by [d]; a render quantum refreshes what the
    [value] getter of the gain returns. *)
Definition render (d : Q) (p : Player) : Player :=
  match audioContext p with
  | Some ctx =>
      let t := currentTime ctx + d in
      let g := gain ctx in
      let g' := if Js.ltb 0 d then mkAudioParam (intrinsic g) (valueAt g t) (events g) else g in
      mkPlayer (Some (mkAudioContext t g' (created ctx) (started ctx)
                                     (stopped ctx) (disconnected ctx)))
               (gainNode p) (isStopping p) (nextStartTime p) (scheduledBuffers p)
               (stopTimeout p)
  | None => p
  end.

Definition due (id : nat) (w : Page) : bool :=
  existsb (fun t => (timer_id t =? id)%nat && Qle_bool (deadline t) (wall w)) (timers w).

(** One event; [None] when it cannot happen in [w] (time running backwards,
    or a timeout that is not pending or not yet due). *)
Definition step (w : Page) (e : Event) : option Page :=
  match e with
  | Elapse dw da =>
      if Qle_bool 0 dw && Qle_bool 0 da
      then Some (mkPage (render da (player w)) (wall w + dw) (nextTimer w) (timers w))
      else None
  | Chunk pcmData =>
      match processAudioChunk pcmData (player w) with
      | Normal p => Some (set_player p w)
      | Throw _ => Some w
      end
  | Stop fadeDuration => Some (stop fadeDuration w)
  | HardStop => Some (hardStop w)
  | Fire id =>
      if due id w
      then let w1 := clearTimeout id w in Some (set_player (stopCallback (player w1)) w1)
      else None
  end.

Fixpoint run (w : Page) (es : list Event) : option Page :=
  match es with
  | [] => Some w
  | e :: r => match step w e with Some w' => run w' r | None => None end
  end.

(** *** The buffer a chunk decodes to *)

(** The [float32Array] of [processAudioChunk]. *)
Definition float32Array (pcmData : list Byte.byte) : list Q :=
  map (λ s, inject_Z s / (32768 # 1)) (int16Array pcmData).

(** The [audioBuffer] of [processAudioChunk], once both channels are filled. *)
Definition audioBufferOf (pcmData : list Byte.byte) : AudioBuffer :=
  let '(leftChannel, rightChannel) := deinterleave (float32Array pcmData) in
  mkAudioBuffer (length (float32Array pcmData) / channels) leftChannel rightChannel.

(** *** The visualization loop *)

(** The fields of the player that drive the loop, with the page's table of
    requested animation frames and a count of the calls made to the
    visualization callback. *)
Record Visualization := mkVisualization {
  visualizationCallback : bool;    (* the field is non-null *)
  animationFrameId : option nat;
  requested : list nat;            (* frames requested and not yet run or cancelled *)
  nextFrame : nat;                 (* the handle [requestAnimationFrame] returns next *)
  drawn : nat                      (* calls made to the callback *)
}.

(** [animateVisualization()] *)
Definition animateVisualization (v : Visualization) : Visualization :=
  mkVisualization (visualizationCallback v) (Some (nextFrame v))
                  (requested v ++ [nextFrame v]) (S (nextFrame v))
                  (if visualizationCallback v then S (drawn v) else drawn v).

(** [startVisualization(callback)] *)
Definition startVisualization (v : Visualization) : Visualization :=
  animateVisualization
    (mkVisualization true (animationFrameId v) (requested v) (nextFrame v) (drawn v)).

(** [stopVisualization()]; a handle is truthy when it is not 0. *)
Definition stopVisualization (v : Visualization) : Visualization :=
  match animationFrameId v with
  | Some (S id) =>
      mkVisualization false None
                      (List.filter (λ f, negb (f =? S id)%nat) (requested v))
                      (nextFrame v) (drawn v)
  | _ => mkVisualization false (animationFrameId v) (requested v) (nextFrame v) (drawn v)
  end.

(** The page runs a requested frame: its callback is [animateVisualization].
    [None] when the frame is not in the table. *)
Definition runFrame (id : nat) (v : Visualization) : option Visualization :=
  if existsb (λ f, (f =? id)%nat) (requested v)
  then Some (animateVisualization
               (mkVisualization (visualizationCallback v) (animationFrameId v)
                                (List.filter (λ f, negb (f =? id)%nat) (requested v))
                                (nextFrame v) (drawn v)))
  else None.

Inductive VisEvent :=
| StartVisualization
| StopVisualization
| Frame (id : nat).

Definition visStep (v : Visualization) (e : VisEvent) : option Visualization :=
  match e with
  | StartVisualization => Some (startVisualization v)
  | StopVisualization => Some (stopVisualization v)
  | Frame id => runFrame id v
  end.

Fixpoint visRun (v : Visualization) (es : list VisEvent) : option Visualization :=
  match es with
  | [] => Some v
  | e :: r => match visStep v e with Some v' => visRun v' r | None => None end
  end.

(** The loop of a player just constructed; frame handles start at 1. *)
Definition idle : Visualization := mkVisualization false None [] 1%nat 0%nat.

End AudioPlayer.

(** ** midi-manager.js *)

Module MidiManager.

(** A stored mapping [{ channel, cc }]. *)
Record Mapping := mkMapping {
  channel : N;
  cc : N
}.

(** What [localStorage.getItem(STORAGE_KEY)] holds: nothing (or the empty
    string), a text that [JSON.parse] or the loop rejects, or an object,
    given by its [Object.entries] (distinct keys, in property order). *)
Inductive Stored :=
| Absent
| Malformed
| Entries (parsed : list (string * Mapping)).

Record Manager := mkManager {
  mappings : gmap string Mapping;
  learning : option string;        (* [learning.sliderId] *)
  localStorage : Stored
}.

(** [`${mapping.channel}:${mapping.cc}`] *)
Definition key (mapping : Mapping) : string :=
  Js.decimal (channel mapping) +:+ ":" +:+ Js.decimal (cc mapping).

(** The body of the loop of [loadMappings], on the pair [(seen, mappings)]. *)
Definition loadEntry (acc : gmap string string * gmap string Mapping)
  (entry : string * Mapping) : gmap string string * gmap string Mapping :=
  let '(seen, mappings) := acc in
  let '(sliderId, mapping) := entry in
  let mappings' :=
    match seen !! key mapping with
    | Some older => delete older mappings
    | None => mappings
    end in
  (<[key mapping := sliderId]> seen, <[sliderId := mapping]> mappings').

(** [loadMappings()] *)
Definition loadMappings (m : Manager) : Manager :=
  match localStorage m with
  | Absent => m
  | Malformed => mkManager ∅ (learning m) (localStorage m)
  | Entries parsed =>
      mkManager (snd (foldl loadEntry (∅, ∅) parsed)) (learning m) (localStorage m)
  end.

Definition constructor (stored : Stored) : Manager :=
  loadMappings (mkManager ∅ None stored).

(** [saveMappings()]: the text written is [JSON.stringify(this.mappings)]. *)
Definition saveMappings (m : Manager) : Manager :=
  mkManager (mappings m) (learning m) (Entries (map_to_list (mappings m))).

(** The test of the removal loop of [assignMapping]. *)
Definition clashes (sliderId : string) (channel0 cc0 : N) (entry : string * Mapping) : bool :=
  (cc (snd entry) =? cc0)%N && (channel (snd entry) =? channel0)%N
  && negb (String.eqb (fst entry) sliderId).

(** [assignMapping(sliderId, channel, cc)]; the loop runs over the entries
    taken before the first deletion. *)
Definition assignMapping (sliderId : string) (channel0 cc0 : N) (m : Manager) : Manager :=
  let mappings1 :=
    foldl (fun acc entry =>
             if clashes sliderId channel0 cc0 entry then delete (fst entry) acc else acc)
          (mappings m) (map_to_list (mappings m)) in
  saveMappings
    (mkManager (<[sliderId := mkMapping channel0 cc0]> mappings1) None (localStorage m)).

Definition clearMapping (sliderId : string) (m : Manager) : Manager :=
  saveMappings (mkManager (delete sliderId (mappings m)) (learning m) (localStorage m)).

Definition clearAllMappings (m : Manager) : Manager :=
  saveMappings (mkManager ∅ (learning m) (localStorage m)).

Definition startLearn (sliderId : string) (m : Manager) : Manager :=
  mkManager (mappings m) (Some sliderId) (localStorage m).

Definition cancelLearn (m : Manager) : Manager :=
  mkManager (mappings m) None (localStorage m).

(** [handleMessage(event)] on the three bytes of [event.data]: the manager
    afterwards and the [onParameterChange(sliderId, value)] call, if any. *)
Definition handleMessage (status data1 data2 : N) (m : Manager)
  : Manager * option (string * N) :=
  let messageType := N.land status 240 in
  let channel0 := N.land status 15 in
  if negb (messageType =? 176)%N then (m, None)
  else
    match learning m with
    | Some sliderId => (assignMapping sliderId channel0 data1 m, None)
    | None =>
        (m,
         match List.find (fun entry => (cc (snd entry) =? data1)%N
                                       && (channel (snd entry) =? channel0)%N)
                         (map_to_list (mappings m)) with
         | Some entry => Some (fst entry, data2)
         | None => None
         end)
    end.

(** The calls a page makes on a manager. *)
Inductive Call :=
| AssignMapping (sliderId : string) (channel0 cc0 : N)
| ClearMapping (sliderId : string)
| ClearAllMappings
| StartLearn (sliderId : string)
| CancelLearn
| MidiMessage (status data1 data2 : N)
| LoadMappings.

Definition call (m : Manager) (c : Call) : Manager :=
  match c with
  | AssignMapping sliderId channel0 cc0 => assignMapping sliderId channel0 cc0 m
  | ClearMapping sliderId => clearMapping sliderId m
  | ClearAllMappings => clearAllMappings m
  | StartLearn sliderId => startLearn sliderId m
  | CancelLearn => cancelLearn m
  | MidiMessage status data1 data2 => fst (handleMessage status data1 data2 m)
  | LoadMappings => loadMappings m
  end.

(** No two parameters are mapped to the same [(channel, cc)] pair. *)
Definition unique (mappings : gmap string Mapping) : Prop :=
  ∀ id1 id2 m1 m2,
    mappings !! id1 = Some m1 → mappings !! id2 = Some m2 →
    channel m1 = channel m2 → cc m1 = cc m2 → id1 = id2.

End MidiManager.

(** * The design document's wording, as definitions *)

Module Design.

(** ** Inbound dispatch: what each field of a message asks for *)

Section Dispatch.

Import LyriaClient.

Variable cb : Callbacks.
Variable msg : InMsg.








End Dispatch.

Definition isAudioChunk (e : LyriaClient.Event) : bool :=
  match e with LyriaClient.AudioChunk _ => true | _ => false end.



(** ** The mapping store *)

Section Mappings.

Import MidiManager.

(** Two mappings name the same controller. *)
Definition samePair (a b : Mapping) : Prop :=
  channel a = channel b ∧ cc a = cc b.

(** [(sliderId, mapping)] is an entry of [parsed] and no entry after it
    names the same controller. *)
Definition latest (parsed : list (string * Mapping)) (sliderId : string)
  (mapping : Mapping) : Prop :=
  ∃ l1 l2, parsed = l1 ++ (sliderId, mapping) :: l2
           ∧ ∀ e, e ∈ l2 → ¬ samePair (snd e) mapping.

End Mappings.

(** ** The timeline of scheduled segments *)

Section Timeline.

Import AudioPlayer.

Local Open Scope Q_scope.

(** The segments scheduled so far, oldest first. *)
Definition segments (p : Player) : list Segment :=
  match audioContext p with
  | Some ctx => started ctx
  | None => []
  end.

(** Each segment starts where the one before it ends ([prevEnd]), unless the
    stream had stalled when it was submitted ([prevEnd] already behind the
    clock): then it starts one lead-in after the clock. *)
Fixpoint contiguous (prevEnd : Q) (segs : list Segment) : Prop :=
  match segs with
  | [] => True
  | s :: rest =>
      (if Js.ltb prevEnd (seg_submitted s)
       then seg_start s = seg_submitted s + leadIn
            ∧ seg_submitted s + leadIn <= seg_start s
            ∧ seg_submitted s < seg_start s
       else seg_start s = prevEnd)
      ∧ contiguous (seg_end s) rest
  end.

(** The segment lasts a whole, positive number of frames at 48 kHz. *)
Definition wholeFrames (s : Segment) : Prop :=
  ∃ frames : nat, (0 < frames)%nat
                  ∧ seg_duration s = inject_Z (Z.of_nat frames) / sampleRate.


(** Where the timeline ends: the end of its last segment. *)
Definition timelineEnd (prevEnd : Q) (segs : list Segment) : Q :=
  fold_left (λ _ s, seg_end s) segs prevEnd.

(** Chunk submissions, with the clocks moving on in between. *)
Definition submission (e : Event) : Prop :=
  match e with
  | Chunk _ => True
  | Elapse dw da => 0 <= dw ∧ 0 <= da
  | _ => False
  end.

(** A chunk [processAudioChunk] can decode: whole 16-bit samples, at least
    one stereo frame. *)
Definition playable (pcmData : list Byte.byte) : Prop :=
  Nat.even (length pcmData) = true ∧ (4 ≤ length pcmData)%nat.


(** A page whose player has been initialised, before anything else. *)
Definition initialised : Page := set_player (init constructor) load.

(** Left and right samples put back in frame order. *)
Fixpoint interleave (left right : list Q) : list Q :=
  match left, right with
  | l :: left', r :: right' => l :: r :: interleave left' right'
  | _, _ => []
  end.

(** The bookkeeping of buffer sources: the sources started so far are
    distinct, older than the creation counter and never started in the
    past; each is still tracked or has been disconnected; the tracked items
    are distinct, not stopped, not disconnected, and each stands for a
    started source under that source's end time. *)
Definition wellTracked (p : Player) : Prop :=
  ∃ ctx,
    audioContext p = Some ctx
    ∧ NoDup (map seg_source (started ctx))
    ∧ NoDup (map source (scheduledBuffers p))
    ∧ (∀ s, s ∈ started ctx →
            (seg_source s < created ctx)%nat
            ∧ seg_submitted s <= seg_start s
            ∧ ((∃ item, item ∈ scheduledBuffers p ∧ source item = seg_source s)
               ∨ seg_source s ∈ disconnected ctx))
    ∧ (∀ item, item ∈ scheduledBuffers p →
               (source item ∉ stopped ctx) ∧ (source item ∉ disconnected ctx)
               ∧ ∃ s, s ∈ started ctx ∧ seg_source s = source item
                      ∧ seg_end s = endTime item)
    ∧ (∀ id, id ∈ stopped ctx ∨ id ∈ disconnected ctx → (id < created ctx)%nat).

(** Every fade of the run has a duration that is not negative. *)
Definition fadesNotNegative (e : Event) : Prop :=
  match e with
  | Stop fadeDuration => 0 <= fadeDuration
  | _ => True
  end.

(** The player holds its fade-out flag only while a timeout is pending,
    and its clock is not negative. *)
Definition fadePending (w : Page) : Prop :=
  (∀ ctx, audioContext (player w) = Some ctx → 0 <= currentTime ctx)
  ∧ (isStopping (player w) = true → timers w ≠ []).

(** Each segment starts no earlier than the one before it ends, and ends
    after it starts. *)
Fixpoint ordered (prevEnd : Q) (segs : list Segment) : Prop :=
  match segs with
  | [] => True
  | s :: rest =>
      prevEnd <= seg_start s ∧ seg_start s < seg_end s ∧ ordered (seg_end s) rest
  end.

End Timeline.

(** ** Outbound calls *)

Section Outbound.

Import LyriaClient.

(** The message a call hands to [send]. *)
Definition messageOf (k : Call) : OutMsg :=
  match k with
  | CallSend message => message
  | CallSetWeightedPrompts prompts =>
      ClientContent (map normalizePrompt
                         (match prompts with Single p => [p] | Array ps => ps end))
  | CallSetMusicGenerationConfig config => MusicGenerationConfig (buildConfigObj config)
  | CallPlay => PlaybackControl PLAY
  | CallPause => PlaybackControl PAUSE
  | CallStop => PlaybackControl STOP
  | CallResetContext => PlaybackControl RESET_CONTEXT
  end.

Definition isConnectResolved (e : Event) : bool :=
  match e with ConnectResolved => true | _ => false end.

(** [c'] differs from [c] at most in [isPlaying] and in the calls fired. *)
Definition sameLink (c c' : Client) : Prop :=
  ws c' = ws c ∧ messageQueue c' = messageQueue c
  ∧ isConnected c' = isConnected c ∧ isSetupComplete c' = isSetupComplete c
  ∧ connectResolve c' = connectResolve c ∧ callbacks c' = callbacks c
  ∧ currentConfig c' = currentConfig c ∧ currentPrompts c' = currentPrompts c.


(** The playing flag a token asks for. *)
Definition playingAfter (token : option string) (old : bool) : bool :=
  match token with
  | Some state =>
      if String.eqb state "PLAYING" then true
      else if String.eqb state "PAUSED" then false
      else if String.eqb state "STOPPED" then false
      else old
  | None => old
  end.

(** The config arguments among a list of calls, in order. *)
Definition configsOf (ks : list Call) : list Config :=
  omap (λ k, match k with
             | CallSetMusicGenerationConfig config => Some config
             | _ => None
             end) ks.

(** The value of a field after a series of updates: the last one given,
    or the old one. *)
Definition lastGiven {A} (field : Config → option A) (configs : list Config)
  (old : option A) : option A :=
  foldl (λ acc config, match field config with Some v => Some v | None => acc end)
        old configs.

End Outbound.

(** ** The visualization loop *)

Section Loop.

Import AudioPlayer.

(** At most the frame named by [animationFrameId] is pending, and the
    callback is set exactly while a frame is pending. *)
Definition singleLoop (v : Visualization) : Prop :=
  requested v = match animationFrameId v with Some id => [id] | None => [] end
  ∧ visualizationCallback v = match animationFrameId v with Some _ => true | None => false end
  ∧ (∀ id, animationFrameId v = Some id → (0 < id)%nat)
  ∧ (0 < nextFrame v)%nat.

(** [startVisualization] is only called while no loop is running. *)
Fixpoint startsWhenIdle (v : Visualization) (es : list VisEvent) : Prop :=
  match es with
  | [] => True
  | e :: r =>
      (e = StartVisualization → animationFrameId v = None)
      ∧ match visStep v e with Some v' => startsWhenIdle v' r | None => True end
  end.

(** The starts and the frames of a run. *)
Definition startsAndFrames (es : list VisEvent) : nat :=
  length (List.filter (λ e, match e with StopVisualization => false | _ => true end) es).

End Loop.

End Design.

(** * Order facts for the number model *)

Module JsFacts.

Lemma Qle_bool_false (a b : Q) : Qle_bool a b = false → (b < a)%Q.
Proof.
  intros H. apply Qnot_le_lt. intros Hle. apply Qle_bool_iff in Hle. congruence.
Qed.

Lemma ltb_true (a b : Q) : Js.ltb a b = true → (a < b)%Q.
Proof.
  unfold Js.ltb. intros H. apply Qle_bool_false. by destruct (Qle_bool b a).
Qed.

Lemma ltb_false (a b : Q) : Js.ltb a b = false → (b <= a)%Q.
Proof.
  unfold Js.ltb. intros H. apply Qle_bool_iff. by destruct (Qle_bool b a).
Qed.

(** Turns the boolean comparisons of the context into order facts. *)
Ltac reflect_order :=
  repeat match goal with
    | H : Qle_bool _ _ = true |- _ => apply Qle_bool_iff in H
    | H : Qle_bool _ _ = false |- _ => apply Qle_bool_false in H
    | H : Js.ltb _ _ = true |- _ => apply ltb_true in H
    | H : Js.ltb _ _ = false |- _ => apply ltb_false in H
    end.

End JsFacts.

(** * Properties of lyria-client.js *)

Module LyriaClientFacts.

Import LyriaClient.

Example atob_padded : Base64.atob "SGk=" = Some "Hi"%string.
Proof. vm_compute. reflexivity. Qed.

Example atob_whitespace : Base64.atob "SGVs bG8h" = Some "Hello!"%string.
Proof. vm_compute. reflexivity. Qed.

Example atob_rejects : Base64.atob "SGk" = Some "Hi"%string ∧ Base64.atob "S" = None
                       ∧ Base64.atob "SG-k" = None.
Proof. vm_compute. repeat split. Qed.

Example Math_round_ties :
  Js.Math_round (5 # 2) = 3%Z ∧ Js.Math_round (-5 # 2) = (-2)%Z
  ∧ Js.Math_round (7 # 5) = 1%Z.
Proof. repeat split. Qed.

(** ** [send] and the queue *)

Lemma send_open (message : OutMsg) (c : Client) (w : list OutMsg) :
  ws c = Some (mkWebSocket OPEN w) →
  send message c = (set_ws (Some (mkWebSocket OPEN (w ++ [message]))) c, true).
Proof. intros H. unfold send. rewrite H. reflexivity. Qed.

Lemma send_not_open (message : OutMsg) (c : Client) :
  ws_open c = false →
  send message c = (set_messageQueue (messageQueue c ++ [message]) c, false).
Proof.
  unfold ws_open, send. destruct (ws c) as [w|]; [|reflexivity].
  destruct (readyState w); intros H; first [discriminate H | reflexivity].
Qed.

Lemma ws_open_spec (c : Client) :
  ws_open c = true ↔ ∃ w, ws c = Some (mkWebSocket OPEN w).
Proof.
  unfold ws_open. split.
  - destruct (ws c) as [[st w]|]; [|discriminate].
    destruct st; try discriminate. intros _. by exists w.
  - intros [w ->]. reflexivity.
Qed.

Lemma send_returns_ws_open (message : OutMsg) (c : Client) :
  snd (send message c) = ws_open c.
Proof.
  destruct (ws_open c) eqn:E.
  - apply ws_open_spec in E as [w E]. by rewrite (send_open _ _ _ E).
  - by rewrite (send_not_open _ _ E).
Qed.

(** On an open socket the loop of [processQueue] ends after one iteration
    per queued message and has put them on the wire in queue order. *)
Lemma processQueue_open (q : list OutMsg) :
  ∀ (fuel : nat) (c : Client) (w : list OutMsg),
    messageQueue c = q → ws c = Some (mkWebSocket OPEN w) → length q ≤ fuel →
    processQueue fuel c =
      Some (set_ws (Some (mkWebSocket OPEN (w ++ q))) (set_messageQueue [] c)).
Proof.
  induction q as [|message rest IH]; intros fuel c w Hq Hw Hfuel.
  - destruct c as [ws0 ? ? ? q0 ? ? ? ? ?]. simpl in Hq, Hw. subst.
    rewrite app_nil_r. by destruct fuel.
  - destruct fuel as [|fuel]; [simpl in Hfuel; lia|].
    simpl. rewrite Hq.
    rewrite (send_open message (set_messageQueue rest c) w Hw). simpl fst.
    rewrite (IH fuel _ (w ++ [message])); [| reflexivity | reflexivity | simpl in Hfuel; lia].
    by rewrite <- app_assoc.
Qed.

(** When the socket is not open [send] puts the message back, so the loop
    never ends on a non-empty queue. *)
Lemma processQueue_not_open_diverges (fuel : nat) :
  ∀ c : Client,
    ws_open c = false → messageQueue c ≠ [] → processQueue fuel c = None.
Proof.
  induction fuel as [|fuel IH]; intros c Hclosed Hq.
  - simpl. by destruct (messageQueue c).
  - simpl. destruct (messageQueue c) as [|message rest] eqn:E; [done|].
    rewrite send_not_open by exact Hclosed. simpl fst.
    apply IH; [exact Hclosed | simpl; by destruct rest].
Qed.

(** ** [setMusicGenerationConfig] *)

(** The message handed to [send] is built from the argument alone. *)
Lemma setMusicGenerationConfig_message (config : Config) (c : Client) :
  setMusicGenerationConfig config c =
    send (MusicGenerationConfig (buildConfigObj config))
         (set_currentConfig (spread (currentConfig c) config) c).
Proof. reflexivity. Qed.

Lemma clamp01_range (x : Q) : (0 <= clamp01 x <= 1)%Q.
Proof.
  unfold clamp01, Js.Math_max, Js.Math_min.
  destruct (Qle_bool 1 x) eqn:E1;
    [destruct (Qle_bool 1 0) eqn:E2 | destruct (Qle_bool x 0) eqn:E2];
    JsFacts.reflect_order; lra.
Qed.

Lemma clamp01_inside (x : Q) : (0 <= x <= 1)%Q → (clamp01 x == x)%Q.
Proof.
  intros [H0 H1]. unfold clamp01, Js.Math_max, Js.Math_min.
  destruct (Qle_bool 1 x) eqn:E1;
    [destruct (Qle_bool 1 0) eqn:E2 | destruct (Qle_bool x 0) eqn:E2];
    JsFacts.reflect_order; lra.
Qed.

Lemma Math_round_nearest (x : Q) :
  (x - (1 # 2) < inject_Z (Js.Math_round x) <= x + (1 # 2))%Q.
Proof.
  unfold Js.Math_round. split.
  - pose proof (Qlt_floor (x + (1 # 2))) as H.
    rewrite inject_Z_plus in H. change (inject_Z 1) with 1%Q in H. lra.
  - apply Qfloor_le.
Qed.


(** A setup acknowledgement that carries nothing else. *)
Lemma handshake_ready :
  handleMessage 0 (Some (mkInMsg true None false false None))
                (onopen (connect constructor)) =
    Some (mkClient (Some (mkWebSocket OPEN [Setup LYRIA_MODEL])) true false true []
                   false (mkCallbacks false false false false) initialConfig [] 
                   [ConnectResolved]).
Proof. reflexivity. Qed.

(** C1 (what the code does at the round-trip example): on a client that has
    completed the handshake, [setMusicGenerationConfig({density: 0.73})]
    followed by [setMusicGenerationConfig({bpm: 140})] puts on the wire, for
    the second call, a [musicGenerationConfig] with [bpm] 140 and no
    [density] field, although the retained config holds both values. *)
Theorem C1_second_update_sends_bpm_only :
  let c0 := default constructor
              (handleMessage 0 (Some (mkInMsg true None false false None))
                             (onopen (connect constructor))) in
  let c1 := fst (setMusicGenerationConfig
                   (mkConfig None (Some (73 # 100)) None None None None None None) c0) in
  let c2 := fst (setMusicGenerationConfig
                   (mkConfig (Some (140 # 1)) None None None None None None None) c1) in
  ws c2 = Some (mkWebSocket OPEN
                  [Setup LYRIA_MODEL;
                   MusicGenerationConfig
                     (mkConfigObj None (Some (73 # 100)) None None None None None None);
                   MusicGenerationConfig
                     (mkConfigObj (Some 140%Z) None None None None None None None)])
  ∧ density (currentConfig c2) = Some (73 # 100)
  ∧ bpm (currentConfig c2) = Some (140 # 1).
Proof. repeat split; reflexivity. Qed.

(** C2 as worded fails: a socket that is open while the handshake is still
    pending transmits at once.  Here [send] returns [true] for a message
    submitted between [onopen] and the setup acknowledgement. *)
Lemma C2_transmits_before_handshake :
  let c := onopen (connect constructor) in
  let message := PlaybackControl PLAY in
  isSetupComplete c = false
  ∧ snd (send message c) = true
  ∧ ws (fst (send message c)) = Some (mkWebSocket OPEN [Setup LYRIA_MODEL; message])
  ∧ ¬ (snd (send message c) = true ↔ ws_open c = true ∧ isSetupComplete c = true).
Proof.
  repeat split; try reflexivity.
  intros [H _]. specialize (H eq_refl) as [_ H]. discriminate H.
Qed.

(** C2 (amended): [send] transmits exactly when the socket is open, whatever
    the handshake flag says; otherwise it appends the message to the queue;
    it never fails and returns whether it transmitted.  When the setup
    acknowledgement is handled on an open socket, the queued messages go on
    the wire in submission order, after what was already sent, and the
    queue is left empty. *)
Theorem C2_send_and_flush (message : OutMsg) (c : Client) :
  snd (send message c) = ws_open c
  ∧ (∀ w, ws c = Some (mkWebSocket OPEN w) →
          ws (fst (send message c)) = Some (mkWebSocket OPEN (w ++ [message]))
          ∧ messageQueue (fst (send message c)) = messageQueue c)
  ∧ (ws_open c = false →
          ws (fst (send message c)) = ws c
          ∧ messageQueue (fst (send message c)) = messageQueue c ++ [message])
  ∧ (∀ w ack fuel,
          ws c = Some (mkWebSocket OPEN w) → setupComplete ack = true →
          length (messageQueue c) ≤ fuel →
          ∃ c', handleMessage fuel (Some ack) c = Some c'
                ∧ ws c' = Some (mkWebSocket OPEN (w ++ messageQueue c))
                ∧ messageQueue c' = []
                ∧ isSetupComplete c' = true).
Proof.
  split; [apply send_returns_ws_open|]. split; [|split].
  - intros w Hw. by rewrite (send_open _ _ _ Hw).
  - intros Hclosed. by rewrite (send_not_open _ _ Hclosed).
  - intros w ack fuel Hw Hack Hfuel. unfold handleMessage. rewrite Hack.
    set (c1 := notifyStateChange "connected" (set_isSetupComplete true c)).
    assert (Hq : messageQueue c1 = messageQueue c)
      by (unfold c1, notifyStateChange; by destruct (onStateChange _)).
    assert (Hw1 : ws c1 = Some (mkWebSocket OPEN w))
      by (unfold c1, notifyStateChange; by destruct (onStateChange _)).
    assert (Hs1 : isSetupComplete c1 = true)
      by (unfold c1, notifyStateChange; by destruct (onStateChange _)).
    rewrite (processQueue_open (messageQueue c) fuel c1 w Hq Hw1 Hfuel).
    destruct (connectResolve _); eexists; (split; [reflexivity|]); simpl; by rewrite ?Hs1.
Qed.

Lemma C2_send_and_flush_witness :
  let c := set_messageQueue [PlaybackControl PLAY; PlaybackControl STOP]
             (onopen (connect constructor)) in
  ∃ c', handleMessage 2 (Some (mkInMsg true None false false None)) c = Some c'
        ∧ ws c' = Some (mkWebSocket OPEN
                          ([Setup LYRIA_MODEL] ++ [PlaybackControl PLAY; PlaybackControl STOP]))
        ∧ messageQueue c' = []
        ∧ isSetupComplete c' = true.
Proof.
  intros c.
  exact (proj2 (proj2 (proj2 (C2_send_and_flush (PlaybackControl PAUSE) c)))
           [Setup LYRIA_MODEL] (mkInMsg true None false false None) 2
           eq_refl eq_refl (le_n 2)).
Defined.


(** ** Inbound dispatch *)

Lemma notifyStateChange_fired (state : string) (c : Client) :
  callbacks (notifyStateChange state c) = callbacks c
  ∧ fired (notifyStateChange state c) =
      fired c ++ (if onStateChange (callbacks c) then [StateChange state] else []).
Proof.
  unfold notifyStateChange. destruct (onStateChange (callbacks c)); simpl;
    by rewrite ?app_nil_r.
Qed.

Lemma notifyError_fired (msg : string) (c : Client) :
  callbacks (notifyError msg c) = callbacks c
  ∧ fired (notifyError msg c) =
      fired c ++ (if onError (callbacks c) then [Error msg] else []).
Proof.
  unfold notifyError. destruct (onError (callbacks c)); simpl;
    by rewrite ?app_nil_r.
Qed.


Lemma onGenerationState_fired (state : string) (c : Client) :
  callbacks (onGenerationState state c) = callbacks c
  ∧ fired (onGenerationState state c) =
      fired c ++ (if negb (onStateChange (callbacks c)) then []
                  else if String.eqb state "PLAYING" then [StateChange "playing"]
                  else if String.eqb state "PAUSED" then [StateChange "paused"]
                  else if String.eqb state "STOPPED" then [StateChange "stopped"]
                  else []).
Proof.
  unfold onGenerationState, notifyStateChange.
  destruct (String.eqb state "PLAYING"); [|destruct (String.eqb state "PAUSED");
    [|destruct (String.eqb state "STOPPED")]];
    simpl; destruct (onStateChange (callbacks c)); simpl; by rewrite ?app_nil_r.
Qed.








(** A chunk whose data is not base64 makes [atob] throw: the [catch] of
    [handleMessage] logs, and the fields after the chunks are not handled. *)
Lemma malformed_chunk_skips_rest :
  let c := onopen (connect (on "error" (on "stateChange" (on "audioChunk" constructor)))) in
  let m := mkInMsg false
             (Some (mkServerContent (Some [mkChunk (Some "@"%string)])
                                    (Some "PLAYING"%string)))
             false false None in
  handleMessage 0 (Some m) c = Some c.
Proof. vm_compute. reflexivity. Qed.



(** ** Clamping and prompt weights *)

(** C9 as worded fails: a negative [bpm] is rounded, not clamped, and goes
    out negative. *)
Lemma C9_negative_bpm_goes_out :
  let c := onopen (connect constructor) in
  let config := mkConfig (Some (-5 # 1)) None None None None None None None in
  snd (setMusicGenerationConfig config c) = true
  ∧ ws (fst (setMusicGenerationConfig config c)) =
      Some (mkWebSocket OPEN
              [Setup LYRIA_MODEL;
               MusicGenerationConfig
                 (mkConfigObj (Some (-5)%Z) None None None None None None None)])
  ∧ ¬ (∀ b, co_bpm (buildConfigObj config) = Some b → (0 ≤ b)%Z).
Proof.
  split; [reflexivity|]. split; [reflexivity|].
  intros H. specialize (H (-5)%Z eq_refl). lia.
Qed.

(** C9 (amended): [setMusicGenerationConfig] hands to [send] a message built
    from its argument; there [density] and [brightness], when given, lie in
    [0, 1] (and are the given value when that already lies in [0, 1]), and
    [bpm], when given, is the integer nearest to the given value, negative
    values included.  Nothing is rejected: the call returns what [send]
    returns for every argument. *)
Theorem C9_density_brightness_clamped_bpm_rounded (config : Config) (c : Client) :
  setMusicGenerationConfig config c =
    send (MusicGenerationConfig (buildConfigObj config))
         (set_currentConfig (spread (currentConfig c) config) c)
  ∧ (∀ d, density config = Some d →
          ∃ d', co_density (buildConfigObj config) = Some d'
                ∧ (0 <= d' <= 1)%Q ∧ ((0 <= d <= 1)%Q → (d' == d)%Q))
  ∧ (∀ b, brightness config = Some b →
          ∃ b', co_brightness (buildConfigObj config) = Some b'
                ∧ (0 <= b' <= 1)%Q ∧ ((0 <= b <= 1)%Q → (b' == b)%Q))
  ∧ (∀ x, bpm config = Some x →
          ∃ n, co_bpm (buildConfigObj config) = Some n
               ∧ (x - (1 # 2) < inject_Z n <= x + (1 # 2))%Q).
Proof.
  split; [reflexivity|]. split; [|split].
  - intros d Hd. exists (clamp01 d). simpl. rewrite Hd.
    split; [reflexivity|]. split; [apply clamp01_range | apply clamp01_inside].
  - intros b Hb. exists (clamp01 b). simpl. rewrite Hb.
    split; [reflexivity|]. split; [apply clamp01_range | apply clamp01_inside].
  - intros x Hx. exists (Js.Math_round x). simpl. rewrite Hx.
    split; [reflexivity | apply Math_round_nearest].
Qed.

Lemma C9_density_brightness_clamped_bpm_rounded_witness :
  ∃ d', co_density (buildConfigObj
                      (mkConfig None (Some (3 # 2)) None None None None None None)) = Some d'
        ∧ (0 <= d' <= 1)%Q ∧ ((0 <= 3 # 2 <= 1)%Q → (d' == 3 # 2)%Q).
Proof.
  exact (proj1 (proj2 (C9_density_brightness_clamped_bpm_rounded
                         (mkConfig None (Some (3 # 2)) None None None None None None)
                         constructor))
               (3 # 2) eq_refl).
Defined.

(** C10: in the message [setWeightedPrompts] hands to [send], a bare string
    prompt has weight 1, a prompt object without weight or with weight 0
    has weight 1, and a prompt object with a non-zero weight keeps it. *)
Theorem C10_zero_weight_becomes_one (prompts : list Prompt) (c : Client) :
  setWeightedPrompts (Array prompts) c =
    send (ClientContent (map normalizePrompt prompts)) (set_currentPrompts prompts c)
  ∧ (∀ s, normalizePrompt (PString s) = mkWeightedPrompt (Some s) 1)
  ∧ (∀ text, normalizePrompt (PObject text None) = mkWeightedPrompt text 1)
  ∧ (∀ text w, (w == 0)%Q →
               normalizePrompt (PObject text (Some w)) = mkWeightedPrompt text 1)
  ∧ (∀ text w, ¬ (w == 0)%Q →
               normalizePrompt (PObject text (Some w)) = mkWeightedPrompt text w).
Proof.
  split; [reflexivity|]. split; [reflexivity|]. split; [reflexivity|]. split.
  - intros text w Hw. unfold normalizePrompt, Js.truthy_number.
    by rewrite (Qeq_eq_bool _ _ Hw).
  - intros text w Hw. unfold normalizePrompt, Js.truthy_number.
    destruct (Qeq_bool w 0) eqn:E; [|done]. by apply Qeq_bool_eq in E.
Qed.

Lemma C10_zero_weight_becomes_one_witness :
  normalizePrompt (PObject (Some "djembe"%string) (Some (0 # 1))) =
    mkWeightedPrompt (Some "djembe"%string) 1
  ∧ normalizePrompt (PObject (Some "djembe"%string) (Some (1 # 4))) =
    mkWeightedPrompt (Some "djembe"%string) (1 # 4).
Proof.
  split.
  - exact (proj1 (proj2 (proj2 (proj2 (C10_zero_weight_becomes_one [] constructor))))
             (Some "djembe"%string) (0 # 1) (Qeq_refl 0)).
  - refine (proj2 (proj2 (proj2 (proj2 (C10_zero_weight_becomes_one [] constructor))))
              (Some "djembe"%string) (1 # 4) _).
    intros H. discriminate H.
Defined.

(** ** Series of outbound calls *)

Lemma call_step (c : Client) (k : Call) :
  isConnected (fst (call c k)) = isConnected c
  ∧ isPlaying (fst (call c k)) = isPlaying c
  ∧ isSetupComplete (fst (call c k)) = isSetupComplete c
  ∧ connectResolve (fst (call c k)) = connectResolve c
  ∧ callbacks (fst (call c k)) = callbacks c
  ∧ fired (fst (call c k)) = fired c
  ∧ (∀ w, ws c = Some (mkWebSocket OPEN w) →
          ws (fst (call c k)) = Some (mkWebSocket OPEN (w ++ [Design.messageOf k]))
          ∧ messageQueue (fst (call c k)) = messageQueue c)
  ∧ (ws_open c = false →
          ws (fst (call c k)) = ws c
          ∧ messageQueue (fst (call c k)) = messageQueue c ++ [Design.messageOf k]).
Proof.
  assert (H : ∃ c0, call c k = send (Design.messageOf k) c0
                    ∧ ws c0 = ws c ∧ messageQueue c0 = messageQueue c
                    ∧ isConnected c0 = isConnected c ∧ isPlaying c0 = isPlaying c
                    ∧ isSetupComplete c0 = isSetupComplete c
                    ∧ connectResolve c0 = connectResolve c
                    ∧ callbacks c0 = callbacks c ∧ fired c0 = fired c).
  { destruct k as [message|prompts|config| | | |]; simpl;
      try (exists c; repeat split; done).
    - eexists. split; [reflexivity|]. repeat split.
    - eexists. split; [reflexivity|]. repeat split. }
  destruct H as (c0 & -> & Hws & Hq & H1 & H2 & H3 & H4 & H5 & H6).
  destruct (ws_open c0) eqn:E.
  - apply ws_open_spec in E as [w0 E]. rewrite (send_open _ _ _ E). simpl.
    split_and!; try done.
    + intros w Hw. rewrite Hws in E. split; congruence.
    + intros Hc. exfalso.
      assert (ws_open c = true) by (apply ws_open_spec; exists w0; congruence).
      congruence.
  - rewrite (send_not_open _ _ E). simpl. split_and!; try done.
    + intros w Hw. exfalso.
      assert (ws_open c0 = true) by (apply ws_open_spec; exists w; congruence).
      congruence.
    + intros _. split; congruence.
Qed.

Lemma ws_open_congr (c c' : Client) : ws c' = ws c → ws_open c' = ws_open c.
Proof. unfold ws_open. by intros ->. Qed.

Lemma calls_spec (ks : list Call) :
  ∀ c : Client,
    isConnected (calls c ks) = isConnected c
    ∧ isPlaying (calls c ks) = isPlaying c
    ∧ isSetupComplete (calls c ks) = isSetupComplete c
    ∧ callbacks (calls c ks) = callbacks c
    ∧ fired (calls c ks) = fired c
    ∧ (∀ w, ws c = Some (mkWebSocket OPEN w) →
            ws (calls c ks) = Some (mkWebSocket OPEN (w ++ map Design.messageOf ks))
            ∧ messageQueue (calls c ks) = messageQueue c)
    ∧ (ws_open c = false →
            ws (calls c ks) = ws c
            ∧ messageQueue (calls c ks) = messageQueue c ++ map Design.messageOf ks).
Proof.
  induction ks as [|k rest IH]; intros c.
  - simpl. split_and!; try done.
    + intros w Hw. by rewrite app_nil_r.
    + intros _. by rewrite app_nil_r.
  - unfold calls. simpl. fold (calls (fst (call c k)) rest).
    destruct (call_step c k) as (H1 & H2 & H3 & _ & H5 & H6 & Hopen & Hclosed).
    destruct (IH (fst (call c k))) as (I1 & I2 & I3 & I5 & I6 & Iopen & Iclosed).
    split_and!; try congruence.
    + intros w Hopen'. destruct (Hopen w Hopen') as [Hw Hq].
      destruct (Iopen _ Hw) as [-> ->]. by rewrite <- app_assoc.
    + intros Hclosed'. destruct (Hclosed Hclosed') as [Hw Hq].
      assert (Hc : ws_open (fst (call c k)) = false)
        by (by rewrite (ws_open_congr _ _ Hw)).
      destruct (Iclosed Hc) as [-> ->]. rewrite Hq. by rewrite <- app_assoc.
Qed.

(** Whatever calls a page makes, in whatever order: the flags, the callback
    slots and the record of fired calls stay as they were; on an open socket
    the messages go on the wire in call order and the queue is untouched; on
    a socket that is not open they go to the back of the queue in call order
    and nothing is transmitted. *)
Theorem outbound_calls_keep_order (ks : list Call) :
  ∀ c : Client,
    isConnected (calls c ks) = isConnected c
    ∧ isPlaying (calls c ks) = isPlaying c
    ∧ isSetupComplete (calls c ks) = isSetupComplete c
    ∧ callbacks (calls c ks) = callbacks c
    ∧ fired (calls c ks) = fired c
    ∧ (∀ w, ws c = Some (mkWebSocket OPEN w) →
            ws (calls c ks) = Some (mkWebSocket OPEN (w ++ map Design.messageOf ks))
            ∧ messageQueue (calls c ks) = messageQueue c)
    ∧ (ws_open c = false →
            ws (calls c ks) = ws c
            ∧ messageQueue (calls c ks) = messageQueue c ++ map Design.messageOf ks).
Proof. apply calls_spec. Qed.

Lemma outbound_calls_keep_order_witness :
  let ks := [CallPlay; CallSetWeightedPrompts (Single (PString "kora")); CallPause] in
  (ws (calls (onopen (connect constructor)) ks) =
     Some (mkWebSocket OPEN ([Setup LYRIA_MODEL] ++ map Design.messageOf ks))
   ∧ messageQueue (calls (onopen (connect constructor)) ks) = [])
  ∧ (ws (calls (connect constructor) ks) = Some (mkWebSocket CONNECTING [])
     ∧ messageQueue (calls (connect constructor) ks) = [] ++ map Design.messageOf ks).
Proof.
  intros ks. split.
  - exact (proj1 (proj2 (proj2 (proj2 (proj2 (proj2
             (outbound_calls_keep_order ks (onopen (connect constructor))))))))
             [Setup LYRIA_MODEL] eq_refl).
  - exact (proj2 (proj2 (proj2 (proj2 (proj2 (proj2
             (outbound_calls_keep_order ks (connect constructor)))))))
             eq_refl).
Defined.

(** ** The handshake and the queue *)

Lemma handleMessage_setupComplete (fuel : nat) (ack : InMsg) (c : Client)
  (w : list OutMsg) :
  ws c = Some (mkWebSocket OPEN w) → setupComplete ack = true →
  length (messageQueue c) ≤ fuel →
  ∃ c', handleMessage fuel (Some ack) c = Some c'
        ∧ ws c' = Some (mkWebSocket OPEN (w ++ messageQueue c))
        ∧ messageQueue c' = []
        ∧ isSetupComplete c' = true
        ∧ connectResolve c' = false
        ∧ fired c' = fired c
                     ++ (if onStateChange (callbacks c) then [StateChange "connected"] else [])
                     ++ (if connectResolve c then [ConnectResolved] else []).
Proof.
  intros Hw Hack Hfuel. unfold handleMessage. rewrite Hack.
  set (c1 := notifyStateChange "connected" (set_isSetupComplete true c)).
  assert (H1 : messageQueue c1 = messageQueue c ∧ ws c1 = Some (mkWebSocket OPEN w)
               ∧ isSetupComplete c1 = true ∧ connectResolve c1 = connectResolve c
               ∧ fired c1 = fired c ++ (if onStateChange (callbacks c)
                                        then [StateChange "connected"] else []))
    by (unfold c1, notifyStateChange; destruct (onStateChange _); simpl;
        by rewrite ?app_nil_r).
  destruct H1 as (Hq & Hw1 & Hs1 & Hr1 & Hf1).
  rewrite (processQueue_open (messageQueue c) fuel c1 w Hq Hw1 Hfuel). simpl.
  rewrite Hr1. destruct (connectResolve c); eexists; (split; [reflexivity|]); simpl;
    rewrite Hs1, Hf1; split_and!; try done; by rewrite ?app_nil_r, <- ?app_assoc.
Qed.

Lemma handshake_after_calls (c : Client) (early late : list Call)
  (ack : InMsg) (fuel : nat) :
  setupComplete ack = true →
  length (messageQueue c) + length early ≤ fuel →
  ∃ c',
    handleMessage fuel (Some ack) (calls (onopen (calls (connect c) early)) late) = Some c'
    ∧ ws c' = Some (mkWebSocket OPEN
                      ([Setup LYRIA_MODEL] ++ map Design.messageOf late
                       ++ messageQueue c ++ map Design.messageOf early))
    ∧ messageQueue c' = [].
Proof.
  intros Hack Hfuel.
  destruct (calls_spec early (connect c))
    as (_ & _ & _ & E4 & _ & _ & Eclosed).
  destruct (Eclosed eq_refl) as [Ews Eq]. simpl in Ews, Eq.
  set (c1 := calls (connect c) early) in *.
  assert (O : ws (onopen c1) = Some (mkWebSocket OPEN [Setup LYRIA_MODEL])
              ∧ messageQueue (onopen c1) = messageQueue c ++ map Design.messageOf early).
  { unfold onopen, sendSetupMessage. rewrite Ews.
    erewrite send_open; [|unfold notifyStateChange; destruct (onStateChange _); reflexivity].
    simpl. unfold notifyStateChange. by destruct (onStateChange _). }
  destruct O as [Ows Oq].
  destruct (calls_spec late (onopen c1))
    as (_ & _ & _ & _ & _ & Lopen & _).
  destruct (Lopen _ Ows) as [Lws Lq].
  destruct (handleMessage_setupComplete fuel ack _ _ Lws Hack) as (c' & Hc' & Hw' & Hq' & _).
  { rewrite Lq, Oq, length_app, length_map. lia. }
  exists c'. split; [exact Hc'|]. split; [|exact Hq'].
  rewrite Hw', Lq, Oq. by rewrite <- !app_assoc.
Qed.

(** The messages of calls made while the socket is still connecting wait in
    the queue; those of calls made after [onopen], before the setup
    acknowledgement, are transmitted at once.  When the acknowledgement is
    handled, the wire therefore holds the setup message, then the later
    calls' messages, and only then what was queued (first what the queue
    held before [connect], then the earlier calls' messages): the queued
    messages keep their order but are overtaken. *)
Theorem queued_messages_are_overtaken (c : Client) (early late : list Call)
  (ack : InMsg) (fuel : nat) :
  setupComplete ack = true →
  length (messageQueue c) + length early ≤ fuel →
  ∃ c',
    handleMessage fuel (Some ack) (calls (onopen (calls (connect c) early)) late) = Some c'
    ∧ ws c' = Some (mkWebSocket OPEN
                      ([Setup LYRIA_MODEL] ++ map Design.messageOf late
                       ++ messageQueue c ++ map Design.messageOf early))
    ∧ messageQueue c' = [].
Proof. apply handshake_after_calls. Qed.

Lemma queued_messages_are_overtaken_witness :
  ∃ c',
    handleMessage 1 (Some (mkInMsg true None false false None))
      (calls (onopen (calls (connect constructor)
                            [CallSetWeightedPrompts (Single (PString "kora"))]))
             [CallPlay]) = Some c'
    ∧ ws c' = Some (mkWebSocket OPEN
                      ([Setup LYRIA_MODEL] ++ map Design.messageOf [CallPlay]
                       ++ [] ++ map Design.messageOf
                                    [CallSetWeightedPrompts (Single (PString "kora"))]))
    ∧ messageQueue c' = [].
Proof.
  exact (queued_messages_are_overtaken constructor
           [CallSetWeightedPrompts (Single (PString "kora"))] [CallPlay]
           (mkInMsg true None false false None) 1 eq_refl (le_n 1)).
Defined.

(** [disconnect] drops the socket but not the queue: what was queued before
    it, and the messages of the calls made after it (each of which returns
    [false] on the missing socket), go out on the next connection, right
    after its setup message. *)
Theorem disconnect_keeps_queue (c : Client) (ks : list Call) (ack : InMsg) (fuel : nat) :
  setupComplete ack = true →
  length (messageQueue c) + length ks ≤ fuel →
  ws (calls (disconnect c) ks) = None
  ∧ messageQueue (calls (disconnect c) ks) = messageQueue c ++ map Design.messageOf ks
  ∧ (∀ k c0, ws c0 = None → snd (call c0 k) = false)
  ∧ ∃ c',
      handleMessage fuel (Some ack) (onopen (connect (calls (disconnect c) ks))) = Some c'
      ∧ ws c' = Some (mkWebSocket OPEN
                        ([Setup LYRIA_MODEL] ++ messageQueue c ++ map Design.messageOf ks))
      ∧ messageQueue c' = [].
Proof.
  intros Hack Hfuel.
  destruct (calls_spec ks (disconnect c))
    as (_ & _ & _ & _ & _ & _ & Hclosed).
  destruct (Hclosed eq_refl) as [Hws Hq]. simpl in Hws, Hq.
  split; [exact Hws|]. split; [exact Hq|]. split.
  - intros k c0 Hc0.
    assert (H : ∃ c1, call c0 k = send (Design.messageOf k) c1 ∧ ws c1 = None).
    { destruct k; simpl; eexists; (split; [reflexivity|]); exact Hc0. }
    destruct H as (c1 & -> & Hc1). rewrite send_returns_ws_open.
    unfold ws_open. by rewrite Hc1.
  - destruct (handshake_after_calls (calls (disconnect c) ks) [] [] ack fuel Hack)
      as (c' & Hc' & Hw' & Hq').
    { rewrite Hq, length_app, length_map. simpl. lia. }
    exists c'. split; [exact Hc'|]. split; [|exact Hq'].
    rewrite Hw', Hq. simpl. by rewrite app_nil_r.
Qed.

Lemma disconnect_keeps_queue_witness :
  let c := fst (play (connect constructor)) in
  ws (calls (disconnect c) [CallStop]) = None
  ∧ messageQueue (calls (disconnect c) [CallStop])
    = messageQueue c ++ map Design.messageOf [CallStop]
  ∧ (∀ k c0, ws c0 = None → snd (call c0 k) = false)
  ∧ ∃ c',
      handleMessage 2 (Some (mkInMsg true None false false None))
                    (onopen (connect (calls (disconnect c) [CallStop]))) = Some c'
      ∧ ws c' = Some (mkWebSocket OPEN
                        ([Setup LYRIA_MODEL] ++ messageQueue c
                         ++ map Design.messageOf [CallStop]))
      ∧ messageQueue c' = [].
Proof.
  intros c.
  exact (disconnect_keeps_queue c [CallStop] (mkInMsg true None false false None) 2
           eq_refl (le_n 2)).
Defined.

(** When the setup acknowledgement is handled while the socket is not open
    (closed in the meantime, or dropped by [disconnect]) and the queue is
    not empty, [processQueue] takes the first message off the queue and
    [send] puts it back, for ever: no amount of fuel lets [handleMessage]
    return. *)
Theorem handshake_on_closed_socket_never_returns (fuel : nat) (ack : InMsg) (c : Client) :
  setupComplete ack = true → ws_open c = false → messageQueue c ≠ [] →
  handleMessage fuel (Some ack) c = None.
Proof.
  intros Hack Hclosed Hq. unfold handleMessage. rewrite Hack.
  rewrite processQueue_not_open_diverges; [done | |].
  - unfold notifyStateChange. by destruct (onStateChange _).
  - unfold notifyStateChange. by destruct (onStateChange _).
Qed.

Lemma handshake_on_closed_socket_never_returns_witness :
  handleMessage 1000 (Some (mkInMsg true None false false None))
                (disconnect (fst (play (connect constructor)))) = None.
Proof.
  apply handshake_on_closed_socket_never_returns; [reflexivity | reflexivity | discriminate].
Defined.

(** ** Inbound frames *)

Lemma sameLink_refl (c : Client) : Design.sameLink c c.
Proof. by repeat split. Qed.

Lemma sameLink_trans (a b c : Client) :
  Design.sameLink a b → Design.sameLink b c → Design.sameLink a c.
Proof.
  intros (?&?&?&?&?&?&?&?) (?&?&?&?&?&?&?&?). repeat split; congruence.
Qed.

Lemma fire_sameLink (e : Event) (c : Client) : Design.sameLink c (fire e c).
Proof. by repeat split. Qed.

(** The chunk loop touches nothing but the record of fired calls, and
    fires audio-chunk calls only; this needs no assumption on the data. *)
Lemma forAudioChunks_frame (chunks : list Chunk) :
  ∀ c : Client,
    Design.sameLink c (fst (forAudioChunks chunks c))
    ∧ isPlaying (fst (forAudioChunks chunks c)) = isPlaying c
    ∧ ∃ evs, fired (fst (forAudioChunks chunks c)) = fired c ++ evs
             ∧ Forall (λ e, Design.isAudioChunk e = true) evs.
Proof.
  induction chunks as [|chunk rest IH]; intros c.
  - simpl. split; [apply sameLink_refl|]. split; [done|]. exists []. by rewrite app_nil_r.
  - assert (Hskip : Design.sameLink c (fst (forAudioChunks rest c))
                    ∧ isPlaying (fst (forAudioChunks rest c)) = isPlaying c
                    ∧ ∃ evs, fired (fst (forAudioChunks rest c)) = fired c ++ evs
                             ∧ Forall (λ e, Design.isAudioChunk e = true) evs)
      by apply IH.
    simpl. destruct (Js.truthy_string (data chunk) && onAudioChunk (callbacks c));
      [|exact Hskip].
    destruct (data chunk) as [d|]; [|exact Hskip].
    destruct (base64ToArrayBuffer d) as [bytes|].
    + destruct (IH (fire (AudioChunk bytes) c)) as (H1 & H2 & evs & H3 & H4).
      split; [exact (sameLink_trans _ _ _ (fire_sameLink _ c) H1)|].
      split; [exact H2|]. exists (AudioChunk bytes :: evs).
      split; [rewrite H3; simpl; by rewrite <- app_assoc|]. by constructor.
    + simpl. split; [apply sameLink_refl|]. split; [done|].
      exists []. by rewrite app_nil_r.
Qed.

Lemma notifyStateChange_frame (state : string) (c : Client) :
  Design.sameLink c (notifyStateChange state c)
  ∧ isPlaying (notifyStateChange state c) = isPlaying c.
Proof. unfold notifyStateChange. destruct (onStateChange _); by repeat split. Qed.

Lemma notifyError_frame (msg : string) (c : Client) :
  Design.sameLink c (notifyError msg c)
  ∧ isPlaying (notifyError msg c) = isPlaying c.
Proof. unfold notifyError. destruct (onError _); by repeat split. Qed.

Lemma onGenerationState_frame (state : string) (c : Client) :
  Design.sameLink c (onGenerationState state c)
  ∧ isPlaying (onGenerationState state c) = Design.playingAfter (Some state) (isPlaying c).
Proof.
  unfold onGenerationState, Design.playingAfter, notifyStateChange.
  destruct (String.eqb state "PLAYING"); [|destruct (String.eqb state "PAUSED");
    [|destruct (String.eqb state "STOPPED")]];
    simpl; destruct (onStateChange (callbacks c)); by repeat split.
Qed.



Lemma handleMessage_content (fuel : nat) (c : Client) (m : InMsg) :
  setupComplete m = false →
  ∃ c' evs, handleMessage fuel (Some m) c = Some c'
            ∧ Design.sameLink c c'
            ∧ fired c' = fired c ++ evs
            ∧ List.filter Design.isConnectResolved evs = [].
Proof.
  intros Hsetup. unfold handleMessage. rewrite Hsetup.
  set (r := match serverContent m with
            | Some sc => match audioChunks sc with
                         | Some chunks => forAudioChunks chunks c
                         | None => (c, true)
                         end
            | None => (c, true)
            end).
  assert (Hr : Design.sameLink c (fst r)
               ∧ ∃ evs, fired (fst r) = fired c ++ evs
                        ∧ List.filter Design.isConnectResolved evs = []).
  { assert (Hnone : Design.sameLink c c
                    ∧ ∃ evs, fired c = fired c ++ evs
                             ∧ List.filter Design.isConnectResolved evs = [])
      by (split; [apply sameLink_refl | exists []; by rewrite app_nil_r]).
    unfold r. destruct (serverContent m) as [sc|]; [|exact Hnone].
    destruct (audioChunks sc) as [chunks|]; [|exact Hnone].
    destruct (forAudioChunks_frame chunks c) as (H1 & _ & evs & H2 & H3).
    split; [exact H1|]. exists evs. split; [exact H2|].
    clear H2. induction H3 as [|e evs He _ IH]; [done|]. simpl.
    destruct e; try discriminate He. exact IH. }
  destruct r as [c1 ok]. simpl in Hr. destruct Hr as (L1 & evs1 & F1 & N1). simpl.
  destruct ok; simpl; [|by exists c1, evs1].
  set (c2 := match serverContent m with
             | Some sc =>
                 if Js.truthy_string (generationState sc)
                 then match generationState sc with
                      | Some state => onGenerationState state c1
                      | None => c1
                      end
                 else c1
             | None => c1
             end).
  assert (H2 : Design.sameLink c1 c2
               ∧ ∃ evs, fired c2 = fired c1 ++ evs
                        ∧ List.filter Design.isConnectResolved evs = []).
  { assert (Hnone : Design.sameLink c1 c1
                    ∧ ∃ evs, fired c1 = fired c1 ++ evs
                             ∧ List.filter Design.isConnectResolved evs = [])
      by (split; [apply sameLink_refl | exists []; by rewrite app_nil_r]).
    unfold c2. destruct (serverContent m) as [sc|]; [|exact Hnone].
    destruct (Js.truthy_string (generationState sc)); [|exact Hnone].
    destruct (generationState sc) as [state|]; [|exact Hnone].
    split; [apply onGenerationState_frame|].
    destruct (onGenerationState_fired state c1) as [_ ->]. eexists. split; [reflexivity|].
    destruct (negb _); [done|].
    destruct (String.eqb state "PLAYING"); [done|].
    destruct (String.eqb state "PAUSED"); [done|].
    by destruct (String.eqb state "STOPPED"). }
  destruct H2 as (L2 & evs2 & F2 & N2).
  set (c3 := if filteredPrompt m
             then notifyError "Prompt was filtered by safety system" c2 else c2).
  assert (H3 : Design.sameLink c2 c3
               ∧ ∃ evs, fired c3 = fired c2 ++ evs
                        ∧ List.filter Design.isConnectResolved evs = []).
  { unfold c3. destruct (filteredPrompt m).
    - split; [apply notifyError_frame|].
      destruct (notifyError_fired "Prompt was filtered by safety system" c2) as [_ ->].
      eexists. split; [reflexivity|]. by destruct (onError _).
    - split; [apply sameLink_refl | exists []; by rewrite app_nil_r]. }
  destruct H3 as (L3 & evs3 & F3 & N3).
  destruct (error m) as [e|].
  - eexists. exists (evs1 ++ evs2 ++ evs3 ++ (if onError (callbacks c3)
                                                then [Error (errorText e)] else [])).
    split; [reflexivity|]. split; [|split].
    + exact (sameLink_trans _ _ _ (sameLink_trans _ _ _ (sameLink_trans _ _ _ L1 L2) L3)
               (proj1 (notifyError_frame _ c3))).
    + destruct (notifyError_fired (errorText e) c3) as [_ ->].
      rewrite F3, F2, F1. by rewrite <- !app_assoc.
    + rewrite !List.filter_app, N1, N2, N3. by destruct (onError _).
  - exists c3, (evs1 ++ evs2 ++ evs3). split; [reflexivity|]. split; [|split].
    + exact (sameLink_trans _ _ _ (sameLink_trans _ _ _ L1 L2) L3).
    + rewrite F3, F2, F1. by rewrite <- !app_assoc.
    + by rewrite !List.filter_app, N1, N2, N3.
Qed.

Lemma handleMessage_resolves (fuel : nat) (data : option InMsg) (c : Client)
  (w : list OutMsg) :
  ws c = Some (mkWebSocket OPEN w) → length (messageQueue c) ≤ fuel →
  ∃ c' w',
    handleMessage fuel data c = Some c'
    ∧ ws c' = Some (mkWebSocket OPEN w')
    ∧ length (messageQueue c') ≤ fuel
    ∧ length (List.filter Design.isConnectResolved (fired c'))
      + (if connectResolve c' then 1 else 0)
      ≤ length (List.filter Design.isConnectResolved (fired c))
        + (if connectResolve c then 1 else 0).
Proof.
  intros Hw Hfuel. destruct data as [m|]; [|by exists c, w].
  destruct (setupComplete m) eqn:Hsetup.
  - destruct (handleMessage_setupComplete fuel m c w Hw Hsetup Hfuel)
      as (c' & Hc' & Hw' & Hq' & _ & Hr' & Hf').
    exists c'. eexists. split; [exact Hc'|]. split; [exact Hw'|].
    split; [rewrite Hq'; simpl; lia|].
    rewrite Hr', Hf', !List.filter_app, !length_app.
    destruct (onStateChange _), (connectResolve c); simpl; lia.
  - destruct (handleMessage_content fuel c m Hsetup)
      as (c' & evs & Hc' & (L1 & L2 & _ & _ & L5 & _) & Hf' & Hn').
    exists c', w. split; [exact Hc'|]. split; [congruence|].
    split; [by rewrite L2|].
    rewrite Hf', List.filter_app, Hn', app_nil_r, L5. lia.
Qed.

(** However many frames arrive on an open socket, and whatever they carry
    (several setup acknowledgements, undecodable chunks, unparseable text),
    the pending [connect()] is resolved at most once, and not at all when
    none is pending. *)
Theorem connect_resolved_at_most_once (fuel : nat) (frames : list (option InMsg)) :
  ∀ (c : Client) (w : list OutMsg),
    ws c = Some (mkWebSocket OPEN w) → length (messageQueue c) ≤ fuel →
    ∃ c', handleMessages fuel frames c = Some c'
          ∧ length (List.filter Design.isConnectResolved (fired c'))
            ≤ length (List.filter Design.isConnectResolved (fired c))
              + (if connectResolve c then 1 else 0).
Proof.
  induction frames as [|data rest IH]; intros c w Hw Hfuel.
  - exists c. split; [done|]. lia.
  - destruct (handleMessage_resolves fuel data c w Hw Hfuel)
      as (c1 & w1 & H1 & Hw1 & Hq1 & Hcount1).
    destruct (IH c1 w1 Hw1 Hq1) as (c' & Hc' & Hcount').
    exists c'. simpl. rewrite H1. split; [exact Hc'|].
    destruct (connectResolve c1), (connectResolve c); simpl in *; lia.
Qed.

Lemma connect_resolved_at_most_once_witness :
  let ack := Some (mkInMsg true None false false None) in
  ∃ c', handleMessages 0 [ack; None; ack] (onopen (connect constructor)) = Some c'
        ∧ length (List.filter Design.isConnectResolved (fired c')) ≤ 0 + 1.
Proof.
  intros ack.
  exact (connect_resolved_at_most_once 0 [ack; None; ack] (onopen (connect constructor))
           [Setup LYRIA_MODEL] eq_refl (le_n 0)).
Defined.

(** ** The retained config *)

Lemma call_currentConfig (c : Client) (k : Call) :
  currentConfig (fst (call c k)) =
  match k with
  | CallSetMusicGenerationConfig config => spread (currentConfig c) config
  | _ => currentConfig c
  end.
Proof.
  assert (Hsend : ∀ message c0, currentConfig (fst (send message c0)) = currentConfig c0).
  { intros message c0. unfold send. destruct (ws c0) as [w|]; [|done].
    by destruct (readyState w). }
  destruct k; simpl; unfold setWeightedPrompts, setMusicGenerationConfig, play, pause,
    stop, resetContext; by rewrite Hsend.
Qed.

Lemma retained_field {A} (field : Config → option A) :
  (∀ a b, field (spread a b) = match field b with Some v => Some v | None => field a end) →
  ∀ (ks : list Call) (c : Client),
    field (currentConfig (calls c ks)) =
    Design.lastGiven field (Design.configsOf ks) (field (currentConfig c)).
Proof.
  intros Hspread ks. induction ks as [|k rest IH]; intros c; [done|].
  unfold calls. simpl. fold (calls (fst (call c k)) rest).
  rewrite IH, call_currentConfig. destruct k; try done.
  simpl. unfold Design.lastGiven at 2. simpl. by rewrite Hspread.
Qed.

(** After any series of calls, each field of the retained config holds the
    value of the last [setMusicGenerationConfig] call that gave the field,
    exactly as given (a density outside [0, 1] is retained as it came, a bpm
    unrounded), and the value it had before when no call gave it; the other
    calls do not touch the retained config. *)
Theorem retained_config_is_last_given (ks : list Call) (c : Client) :
  let configs := Design.configsOf ks in
  let old := currentConfig c in
  let new := currentConfig (calls c ks) in
  bpm new = Design.lastGiven bpm configs (bpm old)
  ∧ density new = Design.lastGiven density configs (density old)
  ∧ brightness new = Design.lastGiven brightness configs (brightness old)
  ∧ scale new = Design.lastGiven scale configs (scale old)
  ∧ muteDrums new = Design.lastGiven muteDrums configs (muteDrums old)
  ∧ muteBass new = Design.lastGiven muteBass configs (muteBass old)
  ∧ onlyBassAndDrums new = Design.lastGiven onlyBassAndDrums configs (onlyBassAndDrums old)
  ∧ mode new = Design.lastGiven mode configs (mode old).
Proof. split_and!; by apply retained_field. Qed.

Example retained_density_is_raw :
  let c := calls (onopen (connect constructor))
             [CallSetMusicGenerationConfig
                (mkConfig None (Some (3 # 2)) None None None None None None);
              CallPlay;
              CallSetMusicGenerationConfig
                (mkConfig (Some (181 # 2)) None None None None None None None)] in
  density (currentConfig c) = Some (3 # 2) ∧ bpm (currentConfig c) = Some (181 # 2)
  ∧ brightness (currentConfig c) = Some (1 # 2)
  ∧ (ws c ≫= λ w, last (wire w)) =
      Some (MusicGenerationConfig (mkConfigObj (Some 91%Z) None None None None None None None)).
Proof. repeat split. Qed.

End LyriaClientFacts.

(** * Properties of audio-player.js *)

Module AudioPlayerFacts.

Import AudioPlayer.

Local Open Scope Q_scope.

Lemma ltb_of_lt (a b : Q) : a < b → Js.ltb a b = true.
Proof.
  intros H. destruct (Js.ltb a b) eqn:E; [done|].
  apply JsFacts.ltb_false in E. lra.
Qed.

Lemma ltb_of_le (a b : Q) : b <= a → Js.ltb a b = false.
Proof.
  intros H. destruct (Js.ltb a b) eqn:E; [|done].
  apply JsFacts.ltb_true in E. lra.
Qed.

(** ** Pruning *)

Lemma cleanupBuffers_tracked (now : Q) (p : Player) (item : Item) :
  item ∈ scheduledBuffers (cleanupBuffers now p) ↔
  item ∈ scheduledBuffers p ∧ now <= endTime item.
Proof.
  simpl. rewrite !list_elem_of_In, filter_In. split.
  - intros [Hin Hkeep]. split; [done|].
    apply JsFacts.ltb_false. by destruct (Js.ltb _ _).
  - intros [Hin Hle]. split; [done|]. by rewrite ltb_of_le.
Qed.

Lemma cleanupBuffers_disconnects (now : Q) (p : Player) (ctx : AudioContext) (item : Item) :
  audioContext p = Some ctx → item ∈ scheduledBuffers p → endTime item < now →
  ∃ ctx', audioContext (cleanupBuffers now p) = Some ctx'
          ∧ source item ∈ disconnected ctx'.
Proof.
  intros Hctx Hin Hlt. simpl. rewrite Hctx. simpl. eexists. split; [reflexivity|].
  simpl. apply elem_of_union_r, elem_of_list_to_set, list_elem_of_fmap.
  exists item. split; [done|].
  apply list_elem_of_In, filter_In. split; [by apply list_elem_of_In|].
  by apply ltb_of_lt.
Qed.

(** ** Scheduling *)

Lemma scheduleBuffer_segments (buf : AudioBuffer) (ctx : AudioContext) (p : Player) :
  let start := if Js.ltb (nextStartTime p) (currentTime ctx)
               then currentTime ctx + leadIn else nextStartTime p in
  let s := mkSegment (created ctx) (currentTime ctx) start (duration buf) in
  Design.segments (scheduleBuffer buf ctx p) = started ctx ++ [s]
  ∧ nextStartTime (scheduleBuffer buf ctx p) = seg_end s.
Proof. split; reflexivity. Qed.

Lemma leadIn_ahead (now : Q) : now + leadIn <= now + leadIn ∧ now < now + leadIn.
Proof. unfold leadIn. split; lra. Qed.

(** What one submission adds to the timeline. *)
Lemma processAudioChunk_timeline (pcmData : list Byte.byte) (p : Player) :
  ∃ p' new,
    match processAudioChunk pcmData p with Normal q => q | Throw _ => p end = p'
    ∧ Design.segments p' = Design.segments p ++ new
    ∧ Design.contiguous (nextStartTime p) new
    ∧ Forall Design.wholeFrames new
    ∧ nextStartTime p' = Design.timelineEnd (nextStartTime p) new.
Proof.
  assert (Hsame : ∃ p' new, p = p'
                     ∧ Design.segments p' = Design.segments p ++ new
                     ∧ Design.contiguous (nextStartTime p) new
                     ∧ Forall Design.wholeFrames new
                     ∧ nextStartTime p' = Design.timelineEnd (nextStartTime p) new)
    by (exists p, []; by rewrite app_nil_r).
  unfold processAudioChunk.
  destruct (audioContext p) as [ctx|] eqn:Ectx; [|exact Hsame].
  destruct (isStopping p); [exact Hsame|].
  destruct (negb (Nat.even (length pcmData))); [exact Hsame|].
  destruct (_ =? 0)%nat eqn:Eframes; [exact Hsame|].
  destruct (deinterleave _) as [leftChannel rightChannel].
  eexists. eexists. split; [reflexivity|].
  destruct (scheduleBuffer_segments
              (mkAudioBuffer (length (map (λ s, inject_Z s / (32768 # 1)) (int16Array pcmData))
                              / channels) leftChannel rightChannel) ctx p) as [Hseg Hnext].
  split; [|split; [|split]].
  - rewrite Hseg. unfold Design.segments. by rewrite Ectx.
  - simpl. split; [|done].
    destruct (Js.ltb (nextStartTime p) (currentTime ctx)); [|done].
    split; [done|]. apply leadIn_ahead.
  - apply Forall_singleton. eexists. split; [|reflexivity].
    apply Nat.eqb_neq in Eframes. cbn [numberOfFrames]. lia.
  - exact Hnext.
Qed.

Lemma render_timeline (d : Q) (p : Player) :
  Design.segments (render d p) = Design.segments p
  ∧ nextStartTime (render d p) = nextStartTime p.
Proof.
  unfold render, Design.segments.
  destruct (audioContext p) eqn:E; simpl; by rewrite ?E.
Qed.

Lemma step_timeline (w : Page) (e : Event) :
  Design.submission e →
  ∃ w' new,
    step w e = Some w'
    ∧ Design.segments (player w') = Design.segments (player w) ++ new
    ∧ Design.contiguous (nextStartTime (player w)) new
    ∧ Forall Design.wholeFrames new
    ∧ nextStartTime (player w') = Design.timelineEnd (nextStartTime (player w)) new.
Proof.
  destruct e as [dw da|pcmData| | |]; simpl; try done.
  - intros [Hw Ha]. apply Qle_bool_iff in Hw, Ha. rewrite Hw, Ha. simpl.
    eexists. exists []. split; [reflexivity|]. simpl.
    destruct (render_timeline da (player w)) as [-> ->]. by rewrite app_nil_r.
  - intros _.
    destruct (processAudioChunk_timeline pcmData (player w)) as (p' & new & Hp & H).
    destruct (processAudioChunk pcmData (player w)) as [q|err]; subst p'.
    + exists (set_player q w), new. by split.
    + exists w, new. by split.
Qed.

Lemma contiguous_app (segs1 segs2 : list Segment) :
  ∀ prevEnd,
    Design.contiguous prevEnd segs1 →
    Design.contiguous (Design.timelineEnd prevEnd segs1) segs2 →
    Design.contiguous prevEnd (segs1 ++ segs2).
Proof.
  induction segs1 as [|s rest IH]; intros prevEnd H1 H2; [exact H2|].
  destruct H1 as [Hs Hrest]. split; [exact Hs|]. by apply IH.
Qed.




(** A run with a stall: a first segment at 0, a pause of one second,
    then a segment one lead-in after the clock and one right behind it. *)
Lemma three_chunks_example :
  let chunk := [Byte.x00; Byte.x00; Byte.x00; Byte.x00] in
  option_map (λ w, map (λ s, (seg_submitted s, seg_start s, seg_end s))
                       (Design.segments (player w)))
    (run Design.initialised [Chunk chunk; Elapse (1000 # 1) 1; Chunk chunk; Chunk chunk])
  = Some [(0, 0, 0 + (1 # 48000));
          (0 + 1, 0 + 1 + leadIn, 0 + 1 + leadIn + (1 # 48000));
          (0 + 1, 0 + 1 + leadIn + (1 # 48000), 0 + 1 + leadIn + (1 # 48000) + (1 # 48000))].
Proof. reflexivity. Qed.

Lemma scheduleBuffer_tracked (buf : AudioBuffer) (ctx : AudioContext) (p : Player)
  (item : Item) :
  item ∈ scheduledBuffers (scheduleBuffer buf ctx p) ↔
  (item ∈ scheduledBuffers p
   ∨ item = mkItem (created ctx) (nextStartTime (scheduleBuffer buf ctx p)))
  ∧ currentTime ctx <= endTime item.
Proof.
  unfold scheduleBuffer. rewrite cleanupBuffers_tracked. simpl.
  by rewrite elem_of_app, list_elem_of_singleton.
Qed.

(** C7: the prune keeps every tracked segment whose end is still ahead of
    the clock value it is given and drops every one whose end the clock has
    passed; this holds for [cleanupBuffers] at any clock value and for the
    prune that [scheduleBuffer] runs after a submission, at the time of the
    submission. *)
Theorem C7_prune_exact (now : Q) (p : Player) (item : Item) :
  item ∈ scheduledBuffers p →
  (now < endTime item → item ∈ scheduledBuffers (cleanupBuffers now p))
  ∧ (endTime item < now → item ∉ scheduledBuffers (cleanupBuffers now p))
  ∧ (∀ buf ctx,
       (currentTime ctx < endTime item →
        item ∈ scheduledBuffers (scheduleBuffer buf ctx p))
       ∧ (endTime item < currentTime ctx →
          item ∉ scheduledBuffers (scheduleBuffer buf ctx p))).
Proof.
  intros Hin. split; [|split].
  - intros Hlt. apply cleanupBuffers_tracked. split; [done | lra].
  - intros Hlt Hkept. apply cleanupBuffers_tracked in Hkept as [_ Hle]. lra.
  - intros buf ctx. split.
    + intros Hlt. apply scheduleBuffer_tracked. split; [by left | lra].
    + intros Hlt Hkept. apply scheduleBuffer_tracked in Hkept as [_ Hle]. lra.
Qed.

Lemma C7_prune_exact_witness :
  let p := mkPlayer None false false 0 [mkItem 0 (1 # 2); mkItem 1 (3 # 2)] None in
  mkItem 1 (3 # 2) ∈ scheduledBuffers (cleanupBuffers 1 p)
  ∧ mkItem 0 (1 # 2) ∉ scheduledBuffers (cleanupBuffers 1 p).
Proof.
  intros p. split.
  - refine (proj1 (C7_prune_exact 1 p (mkItem 1 (3 # 2)) _) _).
    + right. left.
    + reflexivity.
  - refine (proj1 (proj2 (C7_prune_exact 1 p (mkItem 0 (1 # 2)) _)) _).
    + left.
    + reflexivity.
Defined.


(** ** The gain timeline *)

Lemma cancelScheduledValues_before (t : Q) (g : AudioParam) (e : Automation) :
  e ∈ events (cancelScheduledValues t g) → eventTime e < t.
Proof.
  simpl. rewrite list_elem_of_In, filter_In. intros [_ H].
  by apply JsFacts.ltb_true.
Qed.

Lemma insertEvent_last (e : Automation) (es : list Automation) :
  (∀ x, x ∈ es → eventTime x < eventTime e) → insertEvent e es = es ++ [e].
Proof.
  induction es as [|x r IH]; intros H; [done|]. simpl.
  assert (Hx : eventTime x < eventTime e) by (apply H; left).
  rewrite ltb_of_le by lra.
  assert (Hne : Qeq_bool (eventTime e) (eventTime x) = false).
  { destruct (Qeq_bool _ _) eqn:E; [|done]. apply Qeq_bool_eq in E. lra. }
  rewrite Hne, andb_false_r. f_equal. apply IH. intros y Hy. apply H. by right.
Qed.

Lemma valueFrom_last (es : list Automation) :
  ∀ v0 t0 v te t,
    (∀ x, x ∈ es → eventTime x < te) → te <= t →
    valueFrom v0 t0 (es ++ [SetValueAtTime v te]) t = v.
Proof.
  induction es as [|x r IH]; intros v0 t0 v te t H Hle.
  - simpl. by rewrite ltb_of_le.
  - assert (Hx : eventTime x < te) by (apply H; left).
    assert (Hr : ∀ y, y ∈ r → eventTime y < te) by (intros y Hy; apply H; by right).
    destruct x as [vx tx | vx tx]; simpl in *; rewrite ltb_of_le by lra; by apply IH.
Qed.

(** After [cancelScheduledValues(t)] and [setValueAtTime(v, t)] the gain is
    [v] from [t] on. *)
Lemma gain_reset (v t : Q) (g : AudioParam) :
  ∀ t', t <= t' → valueAt (setValueAtTime v t (cancelScheduledValues t g)) t' = v.
Proof.
  intros t' Hle. unfold valueAt, setValueAtTime.
  cbn [events intrinsic].
  rewrite insertEvent_last by (intros x Hx; by apply cancelScheduledValues_before in Hx).
  apply valueFrom_last; [|exact Hle].
  intros x Hx. by apply (cancelScheduledValues_before t g).
Qed.

(** ** Fading out *)






Lemma stop_initialised (f : Q) (w : Page) (ctx : AudioContext) :
  audioContext (player w) = Some ctx → gainNode (player w) = true →
  0 <= currentTime ctx + f →
  ∃ g, stop f w =
         mkPage (mkPlayer (Some (set_gain g ctx)) true true
                          (nextStartTime (player w)) (scheduledBuffers (player w))
                          (Some (nextTimer w)))
                (wall w) (S (nextTimer w))
                (timers w ++ [mkTimer (nextTimer w)
                                      (wall w + Js.Math_max 0 (f * (1000 # 1)))]).
Proof.
  intros Hctx Hgain Hf. unfold stop. rewrite Hctx, Hgain. simpl.
  rewrite ltb_of_le by exact Hf. eexists. reflexivity.
Qed.


Lemma int16Array_length (n : nat) :
  ∀ pcmData : list Byte.byte,
    (length pcmData ≤ n)%nat →
    (length pcmData ≤ 2 * length (int16Array pcmData) + 1)%nat.
Proof.
  induction n as [|n IH]; intros pcmData Hn.
  - destruct pcmData; simpl in *; lia.
  - destruct pcmData as [|lo [|hi r]]; simpl in *; try lia.
    specialize (IH r). lia.
Qed.

Lemma processAudioChunk_playable (pcmData : list Byte.byte) (p : Player)
  (ctx : AudioContext) :
  audioContext p = Some ctx → isStopping p = false → Design.playable pcmData →
  ∃ p' s, processAudioChunk pcmData p = Normal p'
          ∧ Design.segments p' = Design.segments p ++ [s].
Proof.
  intros Hctx Hstop [Heven Hlen]. unfold processAudioChunk.
  rewrite Hctx, Hstop, Heven. simpl negb. cbv iota.
  rewrite length_map.
  pose proof (int16Array_length (length pcmData) pcmData (le_n _)) as Hsamples.
  assert (Hframes : (0 < length (int16Array pcmData) / channels)%nat)
    by (apply Nat.div_str_pos; unfold channels; lia).
  destruct (_ =? 0)%nat eqn:E; [apply Nat.eqb_eq in E; lia|].
  destruct (deinterleave _) as [leftChannel rightChannel].
  eexists. eexists. split; [reflexivity|].
  unfold Design.segments at 2. rewrite Hctx. reflexivity.
Qed.




(** [stop] leaves the timeouts it finds pending where they are. *)
Lemma stop_keeps_timers (f : Q) (w : Page) (t : Timer) :
  t ∈ timers w → t ∈ timers (stop f w).
Proof.
  intros Ht. unfold stop. destruct (audioContext (player w)) as [ctx|]; [|done].
  destruct (negb (gainNode (player w))); [done|].
  destruct (Js.ltb _ 0); [done|]. simpl. rewrite elem_of_app. by left.
Qed.

(** [hardStop] removes the timeout whose handle the player holds. *)
Lemma hardStop_clears_timer (w : Page) (id : nat) (t : Timer) :
  stopTimeout (player w) = Some id → t ∈ timers (hardStop w) → timer_id t ≠ id.
Proof.
  intros Hid. unfold hardStop. rewrite Hid. simpl.
  rewrite list_elem_of_In, filter_In. intros [_ H] E.
  by rewrite E, Nat.eqb_refl in H.
Qed.

(** C5 (what the code does when a fade is restarted): [stop(0.5)] at time 0
    and again 300 ms later leaves both timeouts pending; the first one runs
    at 500 ms, during the second fade (which lasts until 800 ms): it clears
    [isStopping] and puts the gain back to 1, and a chunk submitted then is
    scheduled although the second timeout is still pending. *)
Theorem C5_first_teardown_runs_during_second_fade :
  let chunk := [Byte.x00; Byte.x00; Byte.x00; Byte.x00] in
  ∃ w2 w3 w4 ctx3,
    run Design.initialised [Stop (1 # 2); Elapse (300 # 1) (3 # 10); Stop (1 # 2)] = Some w2
    ∧ map timer_id (timers w2) = [1; 2]%nat
    ∧ run w2 [Elapse (200 # 1) (2 # 10); Fire 1%nat] = Some w3
    ∧ map timer_id (timers w3) = [2]%nat
    ∧ isStopping (player w3) = false
    ∧ audioContext (player w3) = Some ctx3
    ∧ currentTime ctx3 == 1 # 2
    ∧ current (gain ctx3) == 24 # 100
    ∧ valueAt (gain ctx3) (currentTime ctx3) = 1
    ∧ step w3 (Chunk chunk) = Some w4
    ∧ length (Design.segments (player w4)) = 1%nat.
Proof.
  intros chunk. eexists. eexists. eexists. eexists.
  split; [vm_compute; reflexivity|]. split; [reflexivity|].
  split; [vm_compute; reflexivity|]. split; [reflexivity|].
  split; [reflexivity|]. split; [reflexivity|].
  split; [reflexivity|]. split; [reflexivity|].
  split; [vm_compute; reflexivity|].
  split; [vm_compute; reflexivity|]. reflexivity.
Qed.

(** ** Decoding a chunk *)

Lemma pairs_ind {A} (P : list A → Prop) :
  P [] → (∀ a, P [a]) → (∀ a b r, P r → P (a :: b :: r)) → ∀ l, P l.
Proof.
  intros H0 H1 H2 l. assert (H : P l ∧ ∀ a, P (a :: l)); [|exact (proj1 H)].
  induction l as [|x r [IH1 IH2]]; [by split|]. split; [apply IH2|].
  intros a. by apply H2.
Qed.

Lemma int16Array_length_div2 (pcmData : list Byte.byte) :
  length (int16Array pcmData) = Nat.div2 (length pcmData).
Proof.
  induction pcmData as [| |lo hi r IH] using pairs_ind; simpl; by rewrite ?IH.
Qed.

Lemma int16Array_range (pcmData : list Byte.byte) (s : Z) :
  s ∈ int16Array pcmData → (-32768 ≤ s ≤ 32767)%Z.
Proof.
  induction pcmData as [| |lo hi r IH] using pairs_ind; simpl.
  - intros H. by apply elem_of_nil in H.
  - intros H. by apply elem_of_nil in H.
  - intros H. apply elem_of_cons in H as [->|H]; [|by apply IH].
    pose proof (Byte.to_N_bounded lo). pose proof (Byte.to_N_bounded hi).
    destruct (_ <? 32768)%Z eqn:E; [apply Z.ltb_lt in E | apply Z.ltb_ge in E]; lia.
Qed.

Lemma deinterleave_spec (samples : list Q) :
  length (deinterleave samples).1 = Nat.div2 (length samples)
  ∧ length (deinterleave samples).2 = Nat.div2 (length samples)
  ∧ (∀ x, x ∈ (deinterleave samples).1 ++ (deinterleave samples).2 → x ∈ samples)
  ∧ ∃ rest, samples = Design.interleave (deinterleave samples).1 (deinterleave samples).2
                      ++ rest
            ∧ (length rest ≤ 1)%nat.
Proof.
  induction samples as [|a|a b r (IH1 & IH2 & IH3 & rest & IH4 & IH5)] using pairs_ind.
  - simpl. split_and!; [done | done | intros x Hx; by apply elem_of_nil in Hx |].
    exists []. split; [done | simpl; lia].
  - simpl. split_and!; [done | done | intros x Hx; by apply elem_of_nil in Hx |].
    exists [a]. split; [done | simpl; lia].
  - simpl. destruct (deinterleave r) as [ls rs]. simpl in *. split_and!.
    + by rewrite IH1.
    + by rewrite IH2.
    + intros x Hx. rewrite elem_of_cons, elem_of_app, elem_of_cons in Hx.
      rewrite !elem_of_cons.
      destruct Hx as [->|[Hx|[->|Hx]]]; [by left | | by right; left |];
        right; right; apply IH3; rewrite elem_of_app; [by left | by right].
    + exists rest. split; [|exact IH5]. by rewrite <- IH4.
Qed.

(** The buffer a chunk decodes to has one frame per four bytes (an
    incomplete frame at the end is dropped), both channels hold that many
    samples, every sample lies in [-1, 1), and the two channels put back in
    frame order are the samples of the chunk, in order, less at most one
    left over. *)
Theorem chunk_decodes_to_stereo_frames (pcmData : list Byte.byte) :
  let b := audioBufferOf pcmData in
  numberOfFrames b = (length pcmData / 4)%nat
  ∧ length (channelData0 b) = numberOfFrames b
  ∧ length (channelData1 b) = numberOfFrames b
  ∧ (∀ x, x ∈ channelData0 b ++ channelData1 b → -1 <= x ∧ x < 1)
  ∧ ∃ rest, float32Array pcmData
            = Design.interleave (channelData0 b) (channelData1 b) ++ rest
            ∧ (length rest ≤ 1)%nat.
Proof.
  unfold audioBufferOf.
  destruct (deinterleave_spec (float32Array pcmData)) as (H1 & H2 & H3 & H4).
  destruct (deinterleave (float32Array pcmData)) as [ls rs].
  cbn [numberOfFrames channelData0 channelData1 fst snd] in *.
  assert (Hlen : length (float32Array pcmData) = Nat.div2 (length pcmData))
    by (unfold float32Array; by rewrite length_map, int16Array_length_div2).
  split_and!.
  - rewrite Hlen, Nat.div2_div. unfold channels. by rewrite Nat.Div0.div_div.
  - rewrite H1, Nat.div2_div. done.
  - rewrite H2, Nat.div2_div. done.
  - intros x Hx. apply H3 in Hx. unfold float32Array in Hx.
    apply list_elem_of_fmap in Hx as (s & -> & Hs). apply int16Array_range in Hs.
    assert (Hlo : inject_Z (-32768) <= inject_Z s) by (rewrite <- Zle_Qle; lia).
    assert (Hhi : inject_Z s < inject_Z 32768) by (rewrite <- Zlt_Qlt; lia).
    change (inject_Z (-32768)) with (-32768 # 1) in Hlo.
    change (inject_Z 32768) with (32768 # 1) in Hhi.
    split.
    + apply Qle_shift_div_l; [reflexivity|]. lra.
    + apply Qlt_shift_div_r; [reflexivity|]. lra.
  - exact H4.
Qed.

Example int16Array_little_endian :
  int16Array [Byte.xff; Byte.x7f; Byte.x00; Byte.x80; Byte.xff; Byte.xff; Byte.x01]
  = [32767; -32768; -1]%Z.
Proof. reflexivity. Qed.

Lemma chunk_frames (pcmData : list Byte.byte) :
  numberOfFrames (audioBufferOf pcmData) = (length pcmData / 4)%nat.
Proof.
  unfold audioBufferOf.
  destruct (deinterleave (float32Array pcmData)). cbn [numberOfFrames].
  unfold float32Array. rewrite length_map, int16Array_length_div2, Nat.div2_div.
  unfold channels. by rewrite Nat.Div0.div_div.
Qed.

Lemma processAudioChunk_decodes (pcmData : list Byte.byte) (p : Player)
  (ctx : AudioContext) :
  audioContext p = Some ctx → isStopping p = false → Design.playable pcmData →
  processAudioChunk pcmData p = Normal (scheduleBuffer (audioBufferOf pcmData) ctx p).
Proof.
  intros Hctx Hstop [Heven Hlen]. unfold processAudioChunk, audioBufferOf.
  rewrite Hctx, Hstop, Heven. simpl negb. cbv iota.
  fold (float32Array pcmData).
  assert (Hframes : (0 < length (float32Array pcmData) / channels)%nat).
  { unfold float32Array. rewrite length_map, int16Array_length_div2, Nat.div2_div.
    unfold channels. rewrite Nat.Div0.div_div. apply Nat.div_str_pos. lia. }
  destruct (_ =? 0)%nat eqn:E; [apply Nat.eqb_eq in E; lia|].
  by destruct (deinterleave _).
Qed.

(** On an initialised player that is not fading out, a chunk of whole
    16-bit samples with at least one stereo frame adds exactly one segment:
    a new source, lasting one frame of 1/48000 s per four bytes, tracked
    under the segment's end time. *)
Theorem playable_chunk_schedules_one_segment (pcmData : list Byte.byte) (p : Player)
  (ctx : AudioContext) :
  audioContext p = Some ctx → isStopping p = false → Design.playable pcmData →
  ∃ p' s,
    processAudioChunk pcmData p = Normal p'
    ∧ Design.segments p' = Design.segments p ++ [s]
    ∧ seg_source s = created ctx
    ∧ seg_submitted s = currentTime ctx
    ∧ seg_duration s = inject_Z (Z.of_nat (length pcmData / 4)) / sampleRate
    ∧ nextStartTime p' = seg_end s
    ∧ mkItem (created ctx) (seg_end s) ∈ scheduledBuffers p'.
Proof.
  intros Hctx Hstop Hplay.
  rewrite (processAudioChunk_decodes pcmData p ctx Hctx Hstop Hplay).
  pose proof (chunk_frames pcmData) as Hframes.
  eexists. eexists. split; [reflexivity|].
  destruct (scheduleBuffer_segments (audioBufferOf pcmData) ctx p) as [Hseg Hnext].
  split; [rewrite Hseg; unfold Design.segments; by rewrite Hctx|].
  split; [done|]. split; [done|].
  split; [simpl; unfold duration; by rewrite Hframes|].
  split; [exact Hnext|].
  apply scheduleBuffer_tracked. split; [right; by rewrite Hnext|].
  cbn [endTime]. unfold seg_end. cbn [seg_start seg_duration].
  assert (Hdur : 0 <= duration (audioBufferOf pcmData)).
  { unfold duration, sampleRate. apply Qle_shift_div_l; [reflexivity|].
    rewrite Qmult_0_l. change 0 with (inject_Z 0). rewrite <- Zle_Qle. lia. }
  destruct (Js.ltb (nextStartTime p) (currentTime ctx)) eqn:E;
    JsFacts.reflect_order; unfold leadIn; lra.
Qed.

Lemma playable_chunk_schedules_one_segment_witness :
  let pcmData := [Byte.x00; Byte.x40; Byte.x00; Byte.xc0; Byte.xff; Byte.x7f;
                  Byte.x01; Byte.x00] in
  ∃ p' s,
    processAudioChunk pcmData (init constructor) = Normal p'
    ∧ Design.segments p' = Design.segments (init constructor) ++ [s]
    ∧ seg_source s = 0%nat
    ∧ seg_submitted s = 0
    ∧ seg_duration s = inject_Z (Z.of_nat (8 / 4)) / sampleRate
    ∧ nextStartTime p' = seg_end s
    ∧ mkItem 0 (seg_end s) ∈ scheduledBuffers p'.
Proof.
  intros pcmData.
  refine (playable_chunk_schedules_one_segment pcmData (init constructor)
            (mkAudioContext 0 (mkAudioParam 1 1 []) 0%nat [] ∅ ∅) eq_refl eq_refl _).
  split; [reflexivity | simpl; lia].
Defined.

(** [processAudioChunk] throws only on a player that is initialised and not
    fading out: there a chunk with an odd number of bytes is a RangeError
    and a chunk of fewer than four bytes (the empty chunk included) a
    NotSupportedError, every other chunk is scheduled; a player that is
    not initialised or is fading out returns at once, unchanged, whatever
    the chunk. *)
Theorem processAudioChunk_outcomes (pcmData : list Byte.byte) (p : Player) :
  (audioContext p = None ∨ isStopping p = true → processAudioChunk pcmData p = Normal p)
  ∧ (is_Some (audioContext p) → isStopping p = false →
     (Nat.even (length pcmData) = false →
      processAudioChunk pcmData p = Throw "RangeError")
     ∧ (Nat.even (length pcmData) = true → (length pcmData < 4)%nat →
        processAudioChunk pcmData p = Throw "NotSupportedError")
     ∧ (Design.playable pcmData →
        ∃ p', processAudioChunk pcmData p = Normal p'
              ∧ length (Design.segments p') = S (length (Design.segments p)))).
Proof.
  split.
  - intros [Hnone | Hstop]; unfold processAudioChunk.
    + by rewrite Hnone.
    + rewrite Hstop. by destruct (audioContext p).
  - intros [ctx Hctx] Hstop. split_and!.
    + intros Hodd. unfold processAudioChunk. by rewrite Hctx, Hstop, Hodd.
    + intros Heven Hlen. unfold processAudioChunk. rewrite Hctx, Hstop, Heven.
      simpl negb. cbv iota. fold (float32Array pcmData).
      assert (Hframes : (length (float32Array pcmData) / channels = 0)%nat).
      { unfold float32Array. rewrite length_map, int16Array_length_div2, Nat.div2_div.
        unfold channels. rewrite Nat.Div0.div_div. apply Nat.div_small. lia. }
      by rewrite Hframes.
    + intros Hplay. rewrite (processAudioChunk_decodes pcmData p ctx Hctx Hstop Hplay).
      eexists. split; [reflexivity|].
      destruct (scheduleBuffer_segments (audioBufferOf pcmData) ctx p) as [-> _].
      unfold Design.segments. rewrite Hctx, length_app. simpl. lia.
Qed.

Lemma processAudioChunk_outcomes_witness :
  processAudioChunk [Byte.x00; Byte.x01; Byte.x02] (init constructor) = Throw "RangeError"
  ∧ processAudioChunk [] (init constructor) = Throw "NotSupportedError"
  ∧ processAudioChunk [Byte.x00] constructor = Normal constructor.
Proof.
  split_and!.
  - exact (proj1 (proj2 (processAudioChunk_outcomes [Byte.x00; Byte.x01; Byte.x02]
                           (init constructor)) (mk_is_Some _ _ eq_refl) eq_refl) eq_refl).
  - refine (proj1 (proj2 (proj2 (processAudioChunk_outcomes [] (init constructor))
                            (mk_is_Some _ _ eq_refl) eq_refl)) eq_refl _).
    simpl. lia.
  - exact (proj1 (processAudioChunk_outcomes [Byte.x00] constructor) (or_introl eq_refl)).
Defined.

(** ** The bookkeeping of buffer sources *)

Lemma NoDup_map_filter {A B} (f : A → B) (P : A → bool) (l : list A) :
  NoDup (map f l) → NoDup (map f (List.filter P l)).
Proof.
  induction l as [|x l IH]; [done|]. simpl. intros H.
  apply NoDup_cons in H as [Hx Hl]. destruct (P x); [|by apply IH].
  simpl. apply NoDup_cons. split; [|by apply IH].
  intros Hin. apply Hx. apply list_elem_of_fmap in Hin as (y & -> & Hy).
  apply list_elem_of_fmap. exists y. split; [done|].
  apply list_elem_of_In. apply list_elem_of_In, filter_In in Hy. tauto.
Qed.

Lemma NoDup_map_inj {A B} (f : A → B) (l : list A) (x y : A) :
  NoDup (map f l) → x ∈ l → y ∈ l → f x = f y → x = y.
Proof.
  induction l as [|z l IH]; intros Hnd Hx Hy Hf; [by apply elem_of_nil in Hx|].
  simpl in Hnd. apply NoDup_cons in Hnd as [Hz Hl].
  apply elem_of_cons in Hx as [->|Hx]; apply elem_of_cons in Hy as [->|Hy].
  - done.
  - exfalso. apply Hz. rewrite Hf. apply list_elem_of_fmap. by exists y.
  - exfalso. apply Hz. rewrite <- Hf. apply list_elem_of_fmap. by exists x.
  - by apply IH.
Qed.

Lemma wellTracked_same (p p' : Player) (ctx ctx' : AudioContext) :
  audioContext p = Some ctx → audioContext p' = Some ctx' →
  scheduledBuffers p' = scheduledBuffers p →
  started ctx' = started ctx → created ctx' = created ctx →
  stopped ctx' = stopped ctx → disconnected ctx' = disconnected ctx →
  Design.wellTracked p → Design.wellTracked p'.
Proof.
  intros Hctx Hctx' Hsb Hst Hcr Hsp Hdc (ctx0 & H0 & H).
  rewrite Hctx in H0. injection H0 as <-.
  exists ctx'. split; [exact Hctx'|]. by rewrite Hsb, Hst, Hcr, Hsp, Hdc.
Qed.

Lemma wellTracked_cleanupBuffers (now : Q) (p : Player) :
  Design.wellTracked p → Design.wellTracked (cleanupBuffers now p).
Proof.
  intros (ctx & Hctx & Hnd & Hnt & Hseg & Hitem & Hid).
  unfold cleanupBuffers. eexists. split; [simpl; rewrite Hctx; reflexivity|].
  simpl. split_and!.
  - exact Hnd.
  - by apply NoDup_map_filter.
  - intros s Hs. destruct (Hseg s Hs) as (H1 & H2 & H3). split_and!; [done | done |].
    destruct H3 as [(item & Hin & Hsrc) | Hdis]; [|right; apply elem_of_union; by left].
    destruct (Js.ltb (endTime item) now) eqn:E.
    + right. apply elem_of_union_r, elem_of_list_to_set, list_elem_of_fmap.
      exists item. split; [done|]. apply list_elem_of_In, filter_In.
      split; [by apply list_elem_of_In | done].
    + left. exists item. split; [|done]. apply list_elem_of_In, filter_In.
      split; [by apply list_elem_of_In | by rewrite E].
  - intros item Hin. apply list_elem_of_In, filter_In in Hin as [Hin Hkeep].
    apply list_elem_of_In in Hin. destruct (Hitem item Hin) as (H1 & H2 & H3).
    split_and!; [done | | done].
    intros Hdis. apply elem_of_union in Hdis as [Hdis | Hdis]; [done|].
    apply elem_of_list_to_set, list_elem_of_fmap in Hdis as (item' & Hsrc & Hin').
    apply list_elem_of_In, filter_In in Hin' as [Hin' Hfin]. apply list_elem_of_In in Hin'.
    assert (item = item') by (by apply (NoDup_map_inj source (scheduledBuffers p))).
    subst item'. by rewrite Hfin in Hkeep.
  - intros id [Hid' | Hid']; [apply Hid; by left|].
    apply elem_of_union in Hid' as [Hid' | Hid']; [apply Hid; by right|].
    apply elem_of_list_to_set, list_elem_of_fmap in Hid' as (item & -> & Hin).
    apply list_elem_of_In, filter_In in Hin as [Hin _]. apply list_elem_of_In in Hin.
    destruct (Hitem item Hin) as (_ & _ & s & Hs & <- & _). by apply Hseg.
Qed.

Lemma wellTracked_scheduleBuffer (buf : AudioBuffer) (ctx : AudioContext) (p : Player) :
  audioContext p = Some ctx → Design.wellTracked p →
  Design.wellTracked (scheduleBuffer buf ctx p).
Proof.
  intros Hctx (ctx0 & H0 & Hnd & Hnt & Hseg & Hitem & Hid).
  rewrite Hctx in H0. injection H0 as <-.
  unfold scheduleBuffer. apply wellTracked_cleanupBuffers.
  set (start := if Js.ltb (nextStartTime p) (currentTime ctx)
                then currentTime ctx + leadIn else nextStartTime p).
  assert (Hitems : ∀ item, item ∈ scheduledBuffers p → (source item < created ctx)%nat).
  { intros item Hin. destruct (Hitem item Hin) as (_ & _ & s & Hs & <- & _).
    by apply Hseg. }
  eexists. split; [reflexivity|]. simpl. split_and!.
  - rewrite map_app. apply NoDup_app. split; [done|]. split; [|apply NoDup_singleton].
    intros id Hin Hnew. apply list_elem_of_singleton in Hnew. subst id.
    apply list_elem_of_fmap in Hin as (s & Hsrc & Hs). destruct (Hseg s Hs) as (? & _).
    simpl in Hsrc. lia.
  - rewrite map_app. apply NoDup_app. split; [done|]. split; [|apply NoDup_singleton].
    intros id Hin Hnew. apply list_elem_of_singleton in Hnew. subst id.
    apply list_elem_of_fmap in Hin as (item & Hsrc & Hin). apply Hitems in Hin. simpl in Hsrc. lia.
  - intros s Hs. apply elem_of_app in Hs as [Hs | Hs].
    + destruct (Hseg s Hs) as (H1 & H2 & H3). split_and!; [lia | done |].
      destruct H3 as [(item & Hin & Hsrc) | Hdis]; [left | by right].
      exists item. split; [|done]. rewrite elem_of_app. by left.
    + apply list_elem_of_singleton in Hs. subst s. simpl. split_and!; [lia | |].
      * unfold start. destruct (Js.ltb _ _) eqn:E; JsFacts.reflect_order;
          unfold leadIn; lra.
      * left. eexists. split; [rewrite elem_of_app, list_elem_of_singleton; by right|].
        done.
  - intros item Hin. apply elem_of_app in Hin as [Hin | Hin].
    + destruct (Hitem item Hin) as (H1 & H2 & s & Hs & Hsrc & Hend).
      split_and!; [done | done |]. exists s. split; [|done]. rewrite elem_of_app. by left.
    + apply list_elem_of_singleton in Hin. subst item. simpl. split_and!.
      * intros H. assert (created ctx < created ctx)%nat by (apply Hid; by left). lia.
      * intros H. assert (created ctx < created ctx)%nat by (apply Hid; by right). lia.
      * eexists. split; [rewrite elem_of_app, list_elem_of_singleton; by right|]. done.
  - intros id Hid'. apply Hid in Hid'. lia.
Qed.

Lemma wellTracked_releaseAll (p : Player) :
  Design.wellTracked p → Design.wellTracked (releaseAll p).
Proof.
  intros (ctx & Hctx & Hnd & Hnt & Hseg & Hitem & Hid).
  assert (Hitems : ∀ item, item ∈ scheduledBuffers p → (source item < created ctx)%nat).
  { intros item Hin. destruct (Hitem item Hin) as (_ & _ & s & Hs & <- & _).
    by apply Hseg. }
  assert (H : ∃ g, audioContext (releaseAll p) =
                   Some (set_gain g (stopAndDisconnect (scheduledBuffers p) ctx))).
  { unfold releaseAll. rewrite Hctx. simpl.
    destruct (gainNode p); [eexists; reflexivity | exists (gain ctx); reflexivity]. }
  destruct H as [g Hrel]. eexists. split; [exact Hrel|]. simpl. split_and!.
  - exact Hnd.
  - apply NoDup_nil_2.
  - intros s Hs. destruct (Hseg s Hs) as (H1 & H2 & H3). split_and!; [done | done |].
    right. destruct H3 as [(item & Hin & Hsrc) | Hdis]; [|apply elem_of_union; by left].
    apply elem_of_union_r, elem_of_list_to_set, list_elem_of_fmap. by exists item.
  - intros item Hin. by apply elem_of_nil in Hin.
  - intros id [Hid' | Hid']; apply elem_of_union in Hid' as [Hid' | Hid'];
      try (apply Hid; first [by left | by right]);
      apply elem_of_list_to_set, list_elem_of_fmap in Hid' as (item & -> & Hin);
      by apply Hitems.
Qed.

Lemma processAudioChunk_cases (pcmData : list Byte.byte) (p p' : Player) :
  processAudioChunk pcmData p = Normal p' →
  p' = p ∨ ∃ ctx buf, audioContext p = Some ctx ∧ p' = scheduleBuffer buf ctx p.
Proof.
  unfold processAudioChunk. destruct (audioContext p) as [ctx|]; [|intros [= <-]; by left].
  destruct (isStopping p); [intros [= <-]; by left|].
  destruct (negb _); [done|]. destruct (_ =? 0)%nat; [done|].
  destruct (deinterleave _). intros [= <-]. right. by eexists _, _.
Qed.

Lemma stop_player (f : Q) (w : Page) :
  player (stop f w) = player w
  ∨ ∃ ctx g b st, audioContext (player w) = Some ctx
                  ∧ player (stop f w) =
                    mkPlayer (Some (set_gain g ctx)) (gainNode (player w)) b
                             (nextStartTime (player w)) (scheduledBuffers (player w)) st.
Proof.
  unfold stop. destruct (audioContext (player w)) as [ctx|] eqn:E; [|by left].
  destruct (negb (gainNode (player w))); [by left|]. right.
  destruct (Js.ltb _ 0); simpl; by eexists _, _, _, _.
Qed.

Lemma render_wellTracked (d : Q) (p : Player) :
  Design.wellTracked p → Design.wellTracked (render d p).
Proof.
  intros (ctx & Hctx & H). unfold render. rewrite Hctx.
  eexists. split; [reflexivity|]. exact H.
Qed.

Lemma flags_wellTracked (p : Player) (b1 b2 : bool) (next : Q) (st : option nat) :
  Design.wellTracked p →
  Design.wellTracked (mkPlayer (audioContext p) b1 b2 next (scheduledBuffers p) st).
Proof. intros (ctx & Hctx & H). exists ctx. split; [exact Hctx | exact H]. Qed.

Lemma gain_wellTracked (p : Player) (ctx : AudioContext) (g : AudioParam)
  (b1 b2 : bool) (next : Q) (st : option nat) :
  audioContext p = Some ctx → Design.wellTracked p →
  Design.wellTracked (mkPlayer (Some (set_gain g ctx)) b1 b2 next (scheduledBuffers p) st).
Proof.
  intros Hctx (ctx0 & H0 & H). rewrite Hctx in H0. injection H0 as <-.
  eexists. split; [reflexivity|]. exact H.
Qed.

Lemma step_wellTracked (w w' : Page) (e : Event) :
  Design.wellTracked (player w) → step w e = Some w' → Design.wellTracked (player w').
Proof.
  intros Hwt. destruct e as [dw da|pcmData|f| |id]; simpl.
  - destruct (_ && _); [|done]. intros [= <-]. simpl. by apply render_wellTracked.
  - destruct (processAudioChunk pcmData (player w)) as [p'|err] eqn:E;
      intros [= <-]; [|exact Hwt]. simpl.
    apply processAudioChunk_cases in E as [-> | (ctx & buf & Hctx & ->)]; [exact Hwt|].
    by apply wellTracked_scheduleBuffer.
  - intros [= <-]. destruct (stop_player f w) as [-> | (ctx & g & b & st & Hctx & ->)];
      [exact Hwt|].
    by apply gain_wellTracked.
  - intros [= <-]. unfold hardStop.
    destruct (stopTimeout (player w)); simpl; apply wellTracked_releaseAll;
      by apply flags_wellTracked.
  - destruct (due id w); [|done]. intros [= <-]. simpl.
    apply (flags_wellTracked (releaseAll (player w))). by apply wellTracked_releaseAll.
Qed.

Lemma run_wellTracked (es : list Event) :
  ∀ w w', Design.wellTracked (player w) → run w es = Some w' →
          Design.wellTracked (player w').
Proof.
  induction es as [|e rest IH]; intros w w' Hwt; simpl; [by intros [= <-]|].
  destruct (step w e) as [w1|] eqn:E; [|done].
  apply IH. by apply (step_wellTracked w w1 e).
Qed.

Lemma initialised_wellTracked : Design.wellTracked (player Design.initialised).
Proof.
  eexists. split; [reflexivity|]. simpl. split_and!; try apply NoDup_nil_2.
  - intros s Hs. by apply elem_of_nil in Hs.
  - intros item Hin. by apply elem_of_nil in Hin.
  - intros id [H | H]; by apply not_elem_of_empty in H.
Qed.

(** Whatever happens on the page after [init()] (chunks, fades, hard
    stops, timeouts, in any order), no buffer source is started twice; every
    source started is either still tracked or has been disconnected, so none
    is lost; and the tracked items are distinct, neither stopped nor
    disconnected, each standing for a started source under that source's end
    time. *)
Theorem sources_started_once_and_accounted (es : list Event) (w' : Page) :
  run Design.initialised es = Some w' →
  ∃ ctx,
    audioContext (player w') = Some ctx
    ∧ NoDup (map seg_source (started ctx))
    ∧ (∀ s, s ∈ started ctx →
            (∃ item, item ∈ scheduledBuffers (player w') ∧ source item = seg_source s)
            ∨ seg_source s ∈ disconnected ctx)
    ∧ NoDup (map source (scheduledBuffers (player w')))
    ∧ (∀ item, item ∈ scheduledBuffers (player w') →
               (source item ∉ stopped ctx) ∧ (source item ∉ disconnected ctx)
               ∧ ∃ s, s ∈ started ctx ∧ seg_source s = source item
                      ∧ seg_end s = endTime item).
Proof.
  intros Hrun.
  destruct (run_wellTracked es _ _ initialised_wellTracked Hrun)
    as (ctx & Hctx & Hnd & Hnt & Hseg & Hitem & _).
  exists ctx. split_and!; try done. intros s Hs. by apply Hseg.
Qed.

Lemma sources_started_once_and_accounted_witness :
  let chunk := [Byte.x00; Byte.x00; Byte.x00; Byte.x00] in
  match run Design.initialised
            [Chunk chunk; Elapse (1000 # 1) 1; Chunk chunk; Stop (1 # 2);
             Elapse (500 # 1) (1 # 2); Fire 1%nat; Chunk chunk; HardStop] with
  | Some w' =>
      ∃ ctx,
        audioContext (player w') = Some ctx
        ∧ NoDup (map seg_source (started ctx))
        ∧ (∀ s, s ∈ started ctx →
                (∃ item, item ∈ scheduledBuffers (player w') ∧ source item = seg_source s)
                ∨ seg_source s ∈ disconnected ctx)
        ∧ NoDup (map source (scheduledBuffers (player w')))
        ∧ (∀ item, item ∈ scheduledBuffers (player w') →
                   (source item ∉ stopped ctx) ∧ (source item ∉ disconnected ctx)
                   ∧ ∃ s, s ∈ started ctx ∧ seg_source s = source item
                          ∧ seg_end s = endTime item)
  | None => False
  end.
Proof.
  intros chunk.
  destruct (run Design.initialised _) as [w'|] eqn:E.
  - exact (sources_started_once_and_accounted _ w' E).
  - vm_compute in E. discriminate E.
Defined.

(** Whatever happens on the page after [init()], no segment is ever
    scheduled to start before the clock value at which it was submitted. *)
Theorem never_scheduled_in_the_past (es : list Event) (w' : Page) :
  run Design.initialised es = Some w' →
  ∀ s, s ∈ Design.segments (player w') → seg_submitted s <= seg_start s.
Proof.
  intros Hrun s Hs.
  destruct (run_wellTracked es _ _ initialised_wellTracked Hrun)
    as (ctx & Hctx & _ & _ & Hseg & _).
  unfold Design.segments in Hs. rewrite Hctx in Hs. by apply Hseg.
Qed.

Lemma never_scheduled_in_the_past_witness :
  let chunk := [Byte.x00; Byte.x00; Byte.x00; Byte.x00] in
  match run Design.initialised
            [Chunk chunk; Elapse (1000 # 1) 1; HardStop; Chunk chunk] with
  | Some w' => ∀ s, s ∈ Design.segments (player w') → seg_submitted s <= seg_start s
  | None => False
  end.
Proof.
  intros chunk.
  destruct (run Design.initialised _) as [w'|] eqn:E.
  - exact (never_scheduled_in_the_past _ w' E).
  - vm_compute in E. discriminate E.
Defined.

(** ** Fading flags and timeouts *)

Lemma scheduleBuffer_clock (buf : AudioBuffer) (ctx : AudioContext) (p : Player) :
  ∃ ctx', audioContext (scheduleBuffer buf ctx p) = Some ctx'
          ∧ currentTime ctx' = currentTime ctx
          ∧ isStopping (scheduleBuffer buf ctx p) = isStopping p.
Proof. unfold scheduleBuffer, cleanupBuffers. simpl. by eexists. Qed.

Lemma releaseAll_clock (p : Player) (ctx' : AudioContext) :
  audioContext (releaseAll p) = Some ctx' →
  ∃ ctx, audioContext p = Some ctx ∧ currentTime ctx' = currentTime ctx.
Proof.
  unfold releaseAll. destruct (audioContext p) as [ctx|]; [|done]. simpl.
  destruct (gainNode p); intros [= <-]; by exists ctx.
Qed.

Lemma step_fadePending (w w' : Page) (e : Event) :
  Design.fadesNotNegative e → Design.fadePending w → step w e = Some w' →
  Design.fadePending w'.
Proof.
  intros He Hw. pose proof Hw as [Hclock Hfade]. destruct e as [dw da|pcmData|f| |id]; simpl.
  - destruct (Qle_bool 0 dw && Qle_bool 0 da) eqn:E; [|done].
    apply andb_true_iff in E as [_ Ea]. apply Qle_bool_iff in Ea.
    intros [= <-]. split; simpl.
    + unfold render. destruct (audioContext (player w)) as [ctx|] eqn:Ectx; [|by rewrite Ectx].
      intros ctx' [= <-]. simpl. specialize (Hclock ctx eq_refl). lra.
    + unfold render. destruct (audioContext (player w)); exact Hfade.
  - destruct (processAudioChunk pcmData (player w)) as [p'|err] eqn:E;
      intros [= <-]; [|exact Hw].
    apply processAudioChunk_cases in E as [-> | (ctx & buf & Hctx & ->)]; [exact Hw|].
    destruct (scheduleBuffer_clock buf ctx (player w)) as (ctx' & H1 & H2 & H3).
    split.
    + intros ctx0 Hc. cbn [player set_player] in Hc. rewrite H1 in Hc.
      injection Hc as <-. rewrite H2. by apply Hclock.
    + cbn [player set_player timers]. rewrite H3. exact Hfade.
  - intros [= <-]. unfold stop.
    destruct (audioContext (player w)) as [ctx|] eqn:Ectx; [|exact Hw].
    destruct (negb (gainNode (player w))); [exact Hw|].
    specialize (Hclock ctx eq_refl). simpl in He.
    rewrite ltb_of_le by lra. simpl. split; simpl.
    + intros ctx' [= <-]. exact Hclock.
    + intros _ Hnil. by apply app_eq_nil in Hnil as [_ ?].
  - intros [= <-]. unfold hardStop. split.
    + intros ctx' Hctx'. destruct (stopTimeout (player w)); simpl in Hctx';
        apply releaseAll_clock in Hctx' as (ctx & Hctx & ->); by apply Hclock.
    + destruct (stopTimeout (player w)); simpl; done.
  - destruct (due id w); [|done]. intros [= <-]. split; simpl; [|done].
    intros ctx' Hctx'. apply releaseAll_clock in Hctx' as (ctx & Hctx & ->).
    by apply Hclock.
Qed.

Lemma run_fadePending (es : list Event) :
  ∀ w w', Forall Design.fadesNotNegative es → Design.fadePending w →
          run w es = Some w' → Design.fadePending w'.
Proof.
  induction es as [|e rest IH]; intros w w' Hes Hw; simpl; [by intros [= <-]|].
  apply Forall_cons in Hes as [He Hrest].
  destruct (step w e) as [w1|] eqn:E; [|done].
  apply IH; [exact Hrest|]. by apply (step_fadePending w w1 e).
Qed.

(** After [init()], as long as no fade is asked for with a negative
    duration, the player refuses chunks (holds [isStopping]) only while a
    timeout is pending, and whichever pending timeout runs next clears the
    flag: the player cannot stay deaf to chunks. *)
Theorem fade_flag_needs_pending_timeout (es : list Event) (w' : Page) :
  Forall Design.fadesNotNegative es →
  run Design.initialised es = Some w' →
  (isStopping (player w') = true → timers w' ≠ [])
  ∧ (∀ id w2, step w' (Fire id) = Some w2 → isStopping (player w2) = false).
Proof.
  intros Hes Hrun. split.
  - refine (proj2 (run_fadePending es Design.initialised w' Hes _ Hrun)).
    split; [|done]. intros ctx [= <-]. simpl. lra.
  - intros id w2. simpl. destruct (due id w'); [|done]. by intros [= <-].
Qed.

Lemma fade_flag_needs_pending_timeout_witness :
  match run Design.initialised [Stop (1 # 2); Elapse (300 # 1) (3 # 10); Stop 0] with
  | Some w' =>
      (isStopping (player w') = true → timers w' ≠ [])
      ∧ (∀ id w2, step w' (Fire id) = Some w2 → isStopping (player w2) = false)
  | None => False
  end.
Proof.
  destruct (run Design.initialised _) as [w'|] eqn:E.
  - refine (fade_flag_needs_pending_timeout _ w' _ E).
    repeat constructor; simpl; discriminate.
  - vm_compute in E. discriminate E.
Defined.

(** ** No overlap *)

Lemma run_timeline (es : list Event) :
  ∀ w : Page,
    Forall Design.submission es →
    ∃ w' new,
      run w es = Some w'
      ∧ Design.segments (player w') = Design.segments (player w) ++ new
      ∧ Design.contiguous (nextStartTime (player w)) new
      ∧ Forall Design.wholeFrames new.
Proof.
  induction es as [|e rest IH]; intros w Hes.
  - exists w, []. simpl. by rewrite app_nil_r.
  - apply Forall_cons in Hes as [He Hrest].
    destruct (step_timeline w e He)
      as (w1 & new1 & Hstep & Hseg1 & Hcont1 & Hdur1 & Hnext1).
    destruct (IH w1 Hrest) as (w' & new2 & Hrun & Hseg2 & Hcont2 & Hdur2).
    exists w', (new1 ++ new2). simpl. rewrite Hstep. split; [exact Hrun|].
    split; [by rewrite Hseg2, Hseg1, <- app_assoc|]. split.
    + apply contiguous_app; [exact Hcont1 | by rewrite <- Hnext1].
    + by apply Forall_app.
Qed.

Lemma wholeFrames_positive (s : Segment) : Design.wholeFrames s → seg_start s < seg_end s.
Proof.
  intros (frames & Hpos & Hdur). unfold seg_end. rewrite Hdur.
  assert (0 < inject_Z (Z.of_nat frames) / sampleRate).
  { apply Qlt_shift_div_l; [reflexivity|]. rewrite Qmult_0_l.
    change 0 with (inject_Z 0). rewrite <- Zlt_Qlt. lia. }
  lra.
Qed.

Lemma contiguous_ordered (segs : list Segment) :
  ∀ prevEnd, Design.contiguous prevEnd segs → Forall Design.wholeFrames segs →
             Design.ordered prevEnd segs.
Proof.
  induction segs as [|s rest IH]; intros prevEnd Hc Hw; [done|].
  destruct Hc as [Hs Hrest]. apply Forall_cons in Hw as [Hws Hwrest].
  split; [|split; [by apply wholeFrames_positive | by apply IH]].
  destruct (Js.ltb prevEnd (seg_submitted s)) eqn:E; JsFacts.reflect_order.
  - destruct Hs as (_ & _ & Hs). lra.
  - rewrite Hs. lra.
Qed.

(** Whatever chunks are submitted and however the clocks move between the
    submissions, the segments scheduled meanwhile never overlap: each lasts
    a positive time and starts no earlier than the previous one ends (the
    first no earlier than [nextStartTime]). *)
Theorem segments_never_overlap (es : list Event) (w : Page) :
  Forall Design.submission es →
  ∃ w' new,
    run w es = Some w'
    ∧ Design.segments (player w') = Design.segments (player w) ++ new
    ∧ Design.ordered (nextStartTime (player w)) new.
Proof.
  intros Hes. destruct (run_timeline es w Hes) as (w' & new & Hrun & Hseg & Hc & Hw).
  exists w', new. split; [exact Hrun|]. split; [exact Hseg|]. by apply contiguous_ordered.
Qed.

Lemma segments_never_overlap_witness :
  let chunk := [Byte.x00; Byte.x00; Byte.x00; Byte.x00] in
  ∃ w' new,
    run Design.initialised [Chunk chunk; Elapse (1000 # 1) 1; Chunk chunk; Chunk chunk]
      = Some w'
    ∧ Design.segments (player w') = Design.segments (player Design.initialised) ++ new
    ∧ Design.ordered (nextStartTime (player Design.initialised)) new.
Proof.
  intros chunk.
  apply (segments_never_overlap
           [Chunk chunk; Elapse (1000 # 1) 1; Chunk chunk; Chunk chunk] Design.initialised).
  repeat constructor; simpl; discriminate.
Defined.

(** ** The hard stop *)

Lemma releaseAll_releases (p : Player) (ctx : AudioContext) :
  audioContext p = Some ctx → gainNode p = true →
  scheduledBuffers (releaseAll p) = []
  ∧ nextStartTime (releaseAll p) = 0
  ∧ isStopping (releaseAll p) = isStopping p
  ∧ ∃ ctx', audioContext (releaseAll p) = Some ctx'
            ∧ currentTime ctx' = currentTime ctx
            ∧ started ctx' = started ctx
            ∧ (∀ item, item ∈ scheduledBuffers p →
                       source item ∈ stopped ctx' ∧ source item ∈ disconnected ctx')
            ∧ (∀ t, currentTime ctx' <= t → valueAt (gain ctx') t = 1).
Proof.
  intros Hctx Hgain. unfold releaseAll. rewrite Hctx, Hgain. simpl.
  split_and!; try done.
  eexists. split; [reflexivity|]. simpl. split_and!; try done.
  - intros item Hitem. split;
      apply elem_of_union_r, elem_of_list_to_set, list_elem_of_fmap; by exists item.
  - intros t Ht. by apply gain_reset.
Qed.

(** [hardStop()] in the middle of a fade ends it at once: the timeout of the
    fade is removed and cannot run any more, the tracked sources are stopped
    and disconnected, the list is emptied, [nextStartTime] is 0, the gain is
    1 from now on, and the next playable chunk is scheduled. *)
Theorem hardStop_cancels_fade (w : Page) (ctx : AudioContext) (f : Q) :
  audioContext (player w) = Some ctx → gainNode (player w) = true →
  0 <= currentTime ctx + f →
  let w1 := hardStop (stop f w) in
  isStopping (player w1) = false
  ∧ stopTimeout (player w1) = None
  ∧ (∀ t, t ∈ timers w1 → t ∈ timers w ∧ timer_id t ≠ nextTimer w)
  ∧ step w1 (Fire (nextTimer w)) = None
  ∧ scheduledBuffers (player w1) = []
  ∧ nextStartTime (player w1) = 0
  ∧ ∃ ctx1,
      audioContext (player w1) = Some ctx1
      ∧ (∀ item, item ∈ scheduledBuffers (player w) →
                 source item ∈ stopped ctx1 ∧ source item ∈ disconnected ctx1)
      ∧ (∀ t, currentTime ctx1 <= t → valueAt (gain ctx1) t = 1)
      ∧ (∀ pcmData, Design.playable pcmData →
           ∃ p2 s, processAudioChunk pcmData (player w1) = Normal p2
                   ∧ Design.segments p2 = Design.segments (player w1) ++ [s]).
Proof.
  intros Hctx Hgain Hf w1.
  destruct (stop_initialised f w ctx Hctx Hgain Hf) as [g Hstop].
  unfold w1, hardStop. rewrite Hstop. cbn [player stopTimeout].
  set (p2 := mkPlayer _ _ false _ _ _).
  destruct (releaseAll_releases p2 (set_gain g ctx) eq_refl eq_refl)
    as (R1 & R2 & R3 & ctx1 & R4 & R5 & R6 & R7 & R8).
  assert (Htimers : ∀ t, t ∈ List.filter (λ t, negb (timer_id t =? nextTimer w)%nat)
                                 (timers w ++ [mkTimer (nextTimer w)
                                    (wall w + Js.Math_max 0 (f * (1000 # 1)))]) →
                         t ∈ timers w ∧ timer_id t ≠ nextTimer w).
  { intros t Ht. apply list_elem_of_In, filter_In in Ht as [Ht Hne].
    apply list_elem_of_In in Ht. apply negb_true_iff, Nat.eqb_neq in Hne.
    split; [|done]. apply elem_of_app in Ht as [Ht | Ht]; [done|].
    apply list_elem_of_singleton in Ht. by subst t. }
  cbn [player set_player clearTimeout timers].
  split_and!; try done.
  - cbn [step]. unfold due. cbn [timers set_player clearTimeout].
    destruct (existsb _ _) eqn:E; [|done]. exfalso.
    apply existsb_exists in E as (t & Ht & Hdue).
    apply list_elem_of_In, Htimers in Ht as [_ Hne].
    apply andb_true_iff in Hdue as [Hid _]. by apply Nat.eqb_eq in Hid.
  - exists ctx1. split_and!; try done.
    intros pcmData Hplay.
    by apply (processAudioChunk_playable pcmData (releaseAll p2) ctx1).
Qed.

Lemma hardStop_cancels_fade_witness :
  let w1 := hardStop (stop (1 # 2) Design.initialised) in
  isStopping (player w1) = false
  ∧ stopTimeout (player w1) = None
  ∧ (∀ t, t ∈ timers w1 → t ∈ timers Design.initialised ∧ timer_id t ≠ 1%nat)
  ∧ step w1 (Fire 1%nat) = None
  ∧ scheduledBuffers (player w1) = []
  ∧ nextStartTime (player w1) = 0
  ∧ ∃ ctx1,
      audioContext (player w1) = Some ctx1
      ∧ (∀ item, item ∈ [] → source item ∈ stopped ctx1 ∧ source item ∈ disconnected ctx1)
      ∧ (∀ t, currentTime ctx1 <= t → valueAt (gain ctx1) t = 1)
      ∧ (∀ pcmData, Design.playable pcmData →
           ∃ p2 s, processAudioChunk pcmData (player w1) = Normal p2
                   ∧ Design.segments p2 = Design.segments (player w1) ++ [s]).
Proof.
  refine (hardStop_cancels_fade Design.initialised
            (mkAudioContext 0 (mkAudioParam 1 1 []) 0%nat [] ∅ ∅) (1 # 2) eq_refl eq_refl _).
  simpl. discriminate.
Defined.

(** ** The gain during a fade and after a volume change *)

Lemma valueFrom_skip (es : list Automation) :
  ∀ v0 t0 v te rest t,
    (∀ x, x ∈ es → eventTime x < te) → te <= t →
    valueFrom v0 t0 (es ++ SetValueAtTime v te :: rest) t = valueFrom v te rest t.
Proof.
  induction es as [|x r IH]; intros v0 t0 v te rest t H Hle.
  - simpl. by rewrite ltb_of_le.
  - assert (Hx : eventTime x < te) by (apply H; left).
    assert (Hr : ∀ y, y ∈ r → eventTime y < te) by (intros y Hy; apply H; by right).
    destruct x as [vx tx | vx tx]; simpl in *; rewrite ltb_of_le by lra; by apply IH.
Qed.

(** On an initialised player, [stop(f)] with [f > 0] schedules a fade that
    starts at the gain the [value] getter returned, falls linearly, and is
    silent from [now + f] on. *)
Theorem fade_falls_linearly_to_silence (w : Page) (ctx : AudioContext) (f : Q) :
  audioContext (player w) = Some ctx → gainNode (player w) = true →
  0 <= currentTime ctx → 0 < f →
  ∃ ctx',
    audioContext (player (stop f w)) = Some ctx'
    ∧ currentTime ctx' = currentTime ctx
    ∧ (∀ t, currentTime ctx <= t → t < currentTime ctx + f →
            valueAt (gain ctx') t
            == current (gain ctx) - current (gain ctx) * ((t - currentTime ctx) / f))
    ∧ (∀ t, currentTime ctx + f <= t → valueAt (gain ctx') t = 0).
Proof.
  intros Hctx Hgain Hnow Hf. unfold stop. rewrite Hctx, Hgain. simpl negb. cbv iota.
  rewrite ltb_of_le by lra. simpl.
  eexists. split; [reflexivity|]. simpl. split; [done|].
  set (now := currentTime ctx). set (g := gain ctx).
  set (before := List.filter (λ e, Js.ltb (eventTime e) now) (events g)).
  assert (Hbefore : ∀ x, x ∈ before → eventTime x < now).
  { intros x Hx. apply list_elem_of_In, filter_In in Hx as [_ Hx].
    by apply JsFacts.ltb_true. }
  assert (Hevents :
    insertEvent (LinearRampToValueAtTime 0 (now + f))
                (insertEvent (SetValueAtTime (current g) now) before)
    = before ++ [SetValueAtTime (current g) now; LinearRampToValueAtTime 0 (now + f)]).
  { rewrite (insertEvent_last (SetValueAtTime (current g) now) before) by exact Hbefore.
    rewrite insertEvent_last; [by rewrite <- app_assoc|].
    intros x Hx. apply elem_of_app in Hx as [Hx | Hx].
    - apply Hbefore in Hx. simpl. lra.
    - apply list_elem_of_singleton in Hx. subst x. simpl. lra. }
  unfold valueAt, linearRampToValueAtTime, setValueAtTime, cancelScheduledValues.
  cbn [events intrinsic current]. fold now g before. rewrite Hevents. split.
  - intros t Hlo Hhi. rewrite valueFrom_skip by (exact Hbefore || exact Hlo).
    simpl. rewrite (ltb_of_lt t (now + f)) by exact Hhi.
    assert (Hden : now + f - now == f) by ring.
    rewrite Hden. field. lra.
  - intros t Hhi. rewrite valueFrom_skip by (exact Hbefore || lra).
    simpl. by rewrite ltb_of_le.
Qed.

Lemma fade_falls_linearly_to_silence_witness :
  ∃ ctx',
    audioContext (player (stop (1 # 2) Design.initialised)) = Some ctx'
    ∧ currentTime ctx' = 0
    ∧ (∀ t, 0 <= t → t < 0 + (1 # 2) →
            valueAt (gain ctx') t == 1 - 1 * ((t - 0) / (1 # 2)))
    ∧ (∀ t, 0 + (1 # 2) <= t → valueAt (gain ctx') t = 0).
Proof.
  refine (fade_falls_linearly_to_silence Design.initialised
            (mkAudioContext 0 (mkAudioParam 1 1 []) 0%nat [] ∅ ∅) (1 # 2)
            eq_refl eq_refl _ _); [discriminate | reflexivity].
Defined.



(** ** The visualization loop *)

Lemma singleLoop_step (v v' : Visualization) (e : VisEvent) :
  Design.singleLoop v → (e = StartVisualization → animationFrameId v = None) →
  visStep v e = Some v' →
  Design.singleLoop v'
  ∧ drawn v' = (drawn v + Design.startsAndFrames [e])%nat.
Proof.
  intros (Hreq & Hcb & Hid & Hnext) Hstart Hstep.
  destruct v as [cb fid req next n]. simpl in *.
  destruct e as [| | id]; simpl in Hstep.
  - injection Hstep as <-. rewrite (Hstart eq_refl) in Hreq. subst req.
    unfold Design.singleLoop, Design.startsAndFrames. simpl.
    split_and!; try done; try lia. by intros id [= <-].
  - injection Hstep as <-. unfold Design.singleLoop, Design.startsAndFrames.
    destruct fid as [[|id]|]; simpl.
    + specialize (Hid 0%nat eq_refl). lia.
    + subst req. simpl. rewrite Nat.eqb_refl. simpl. split_and!; try done; lia.
    + subst req. split_and!; try done; lia.
  - unfold runFrame in Hstep. simpl in Hstep.
    destruct fid as [fid|]; subst req; simpl in Hstep; [|done].
    destruct (fid =? id)%nat eqn:E; simpl in Hstep; [|done].
    injection Hstep as <-. subst cb.
    unfold Design.singleLoop, Design.startsAndFrames. simpl.
    split_and!; try done; try lia. by intros id' [= <-].
Qed.

Lemma singleLoop_run (es : list VisEvent) :
  ∀ v v', Design.singleLoop v → Design.startsWhenIdle v es → visRun v es = Some v' →
          Design.singleLoop v' ∧ drawn v' = (drawn v + Design.startsAndFrames es)%nat.
Proof.
  induction es as [|e r IH]; intros v v' Hv Hes Hrun; simpl in Hrun.
  - injection Hrun as <-. split; [done|]. unfold Design.startsAndFrames. simpl. lia.
  - destruct Hes as [He Hr]. destruct (visStep v e) as [v1|] eqn:E; [|done].
    destruct (singleLoop_step v v1 e Hv He E) as [Hv1 Hd1].
    destruct (IH v1 v' Hv1 Hr Hrun) as [Hv' Hd'].
    split; [done|]. rewrite Hd', Hd1. unfold Design.startsAndFrames. simpl.
    destruct e; simpl; lia.
Qed.

(** On a newly constructed player, as long as [startVisualization] is only
    called while no loop is running, at most one animation frame is pending,
    the callback has been called once per start and once per frame run, and
    [stopVisualization()] leaves no frame pending: no frame runs after it. *)
Theorem visualization_single_loop (es : list VisEvent) (v : Visualization) :
  visRun idle es = Some v → Design.startsWhenIdle idle es →
  (length (requested v) ≤ 1)%nat
  ∧ drawn v = Design.startsAndFrames es
  ∧ requested (stopVisualization v) = []
  ∧ animationFrameId (stopVisualization v) = None
  ∧ ∀ id, runFrame id (stopVisualization v) = None.
Proof.
  intros Hrun Hes.
  assert (Hidle : Design.singleLoop idle).
  { unfold Design.singleLoop, idle. simpl. split_and!; try done; lia. }
  destruct (singleLoop_run es idle v Hidle Hes Hrun) as [Hv Hd].
  assert (Hstop : visStep v StopVisualization = Some (stopVisualization v)) by done.
  destruct (singleLoop_step v _ StopVisualization Hv ltac:(done) Hstop)
    as [(Hreq & Hcb & Hid & Hnext) _].
  destruct Hv as (Hreq0 & _ & Hid0 & _).
  assert (Hnone : animationFrameId (stopVisualization v) = None).
  { unfold stopVisualization. destruct (animationFrameId v) as [[|id]|] eqn:E; [|done..].
    specialize (Hid0 0%nat eq_refl). lia. }
  rewrite Hnone in Hreq.
  split_and!; try done.
  - rewrite Hreq0. destruct (animationFrameId v); simpl; lia.
  - intros id. unfold runFrame. by rewrite Hreq.
Qed.

Lemma visualization_single_loop_witness :
  (length (requested (mkVisualization true (Some 3%nat) [3%nat] 4%nat 3%nat)) ≤ 1)%nat
  ∧ drawn (mkVisualization true (Some 3%nat) [3%nat] 4%nat 3%nat)
    = Design.startsAndFrames
        [StartVisualization; Frame 1; StopVisualization; StartVisualization]
  ∧ requested (stopVisualization (mkVisualization true (Some 3%nat) [3%nat] 4%nat 3%nat)) = []
  ∧ animationFrameId (stopVisualization (mkVisualization true (Some 3%nat) [3%nat] 4%nat 3%nat))
    = None
  ∧ ∀ id, runFrame id (stopVisualization (mkVisualization true (Some 3%nat) [3%nat] 4%nat 3%nat))
          = None.
Proof.
  refine (visualization_single_loop
            [StartVisualization; Frame 1; StopVisualization; StartVisualization]
            (mkVisualization true (Some 3%nat) [3%nat] 4%nat 3%nat) _ _).
  - vm_compute. reflexivity.
  - simpl. split_and!; done.
Defined.

Lemma frames_keep_callback (fs : list nat) :
  ∀ v v', visRun v (map Frame fs) = Some v' → visualizationCallback v = false →
          visualizationCallback v' = false ∧ drawn v' = drawn v.
Proof.
  induction fs as [|id r IH]; intros v v' Hrun Hcb; simpl in Hrun.
  - by injection Hrun as <-.
  - unfold runFrame in Hrun. destruct (existsb _ _); [|done].
    apply IH in Hrun as [Hcb' Hd]; [|by simpl].
    split; [done|]. rewrite Hd. simpl. by rewrite Hcb.
Qed.

(** After [stopVisualization()] the callback is not called again, whatever
    frames still run, and whatever state the loop was in. *)
Theorem stopped_visualization_never_draws (v v' : Visualization) (fs : list nat) :
  visRun (stopVisualization v) (map Frame fs) = Some v' →
  drawn v' = drawn v ∧ visualizationCallback v' = false.
Proof.
  intros Hrun.
  assert (Hstop : visualizationCallback (stopVisualization v) = false
                  ∧ drawn (stopVisualization v) = drawn v).
  { unfold stopVisualization. by destruct (animationFrameId v) as [[|id]|]. }
  destruct Hstop as [Hcb Hd].
  destruct (frames_keep_callback fs _ v' Hrun Hcb) as [Hcb' Hd'].
  split; [congruence | done].
Qed.

Lemma stopped_visualization_never_draws_witness :
  match visRun (stopVisualization (startVisualization (startVisualization idle)))
               (map Frame [1%nat; 3%nat]) with
  | Some v' => drawn v' = 2%nat ∧ visualizationCallback v' = false
  | None => False
  end.
Proof.
  destruct (visRun (stopVisualization (startVisualization (startVisualization idle)))
                   (map Frame [1%nat; 3%nat])) as [v'|] eqn:E.
  - exact (stopped_visualization_never_draws _ v' _ E).
  - vm_compute in E. discriminate E.
Defined.

Lemma frames_keep_requesting (fs : list nat) :
  ∀ v v', visRun v (map Frame fs) = Some v' → requested v ≠ [] → requested v' ≠ [].
Proof.
  induction fs as [|id r IH]; intros v v' Hrun Hne; simpl in Hrun.
  - by injection Hrun as <-.
  - unfold runFrame in Hrun. destruct (existsb _ _); [|done].
    apply IH in Hrun; [done|]. simpl. by destruct (List.filter _ _).
Qed.

(** [startVisualization] does not cancel the frame of a loop that is already
    running.  After two starts in a row, [stopVisualization()] cancels only
    the frame requested last: the frame of the first start stays pending, and
    from then on some frame is always pending, whatever frames run. *)
Theorem second_start_leaves_a_loop_running (v : Visualization) :
  let v2 := stopVisualization (startVisualization (startVisualization v)) in
  nextFrame v ∈ requested v2
  ∧ animationFrameId v2 = None
  ∧ ∀ fs v', visRun v2 (map Frame fs) = Some v' → requested v' ≠ [].
Proof.
  intros v2.
  assert (Hin : nextFrame v ∈ requested v2).
  { unfold v2, stopVisualization, startVisualization, animateVisualization. simpl.
    apply list_elem_of_In, filter_In. split.
    - apply in_or_app. left. apply in_or_app. right. by left.
    - apply negb_true_iff, Nat.eqb_neq. lia. }
  split_and!; [done | done |].
  intros fs v' Hrun. apply (frames_keep_requesting fs v2 v' Hrun).
  intros Hnil. rewrite Hnil in Hin. by apply elem_of_nil in Hin.
Qed.

End AudioPlayerFacts.

(** * Properties of midi-manager.js *)

Module MidiManagerFacts.

Import MidiManager.

Example key_example : key (mkMapping 1 20) = "1:20"%string.
Proof. reflexivity. Qed.

(** ** The key of the [seen] map determines the pair *)

Lemma decimal_before_colon (d : Decimal.uint) (rest : string) :
  Js.before ":" (NilEmpty.string_of_uint d +:+ ":" +:+ rest) = NilEmpty.string_of_uint d
  ∧ Js.after ":" (NilEmpty.string_of_uint d +:+ ":" +:+ rest) = rest.
Proof.
  induction d; simpl; try done; destruct IHd as [IH1 IH2]; by rewrite IH1, IH2.
Qed.

Lemma decimal_inj (a b : N) : Js.decimal a = Js.decimal b → a = b.
Proof.
  unfold Js.decimal. intros H. apply Unsigned.to_uint_inj.
  assert (Hs : Some (N.to_uint a) = Some (N.to_uint b))
    by (rewrite <- !NilEmpty.usu; by rewrite H).
  by injection Hs.
Qed.

Lemma key_samePair (a b : Mapping) : key a = key b ↔ Design.samePair a b.
Proof.
  unfold key, Design.samePair, Js.decimal. split.
  - intros H.
    destruct (decimal_before_colon (N.to_uint (channel a))
                (NilEmpty.string_of_uint (N.to_uint (cc a)))) as [Ha1 Ha2].
    destruct (decimal_before_colon (N.to_uint (channel b))
                (NilEmpty.string_of_uint (N.to_uint (cc b)))) as [Hb1 Hb2].
    rewrite H in Ha1, Ha2. split; apply decimal_inj; unfold Js.decimal; congruence.
  - intros [-> ->]. reflexivity.
Qed.

(** ** Loading *)

Lemma latest_snoc (l : list (string * Mapping)) (sid : string) (sm : Mapping)
  (id : string) (m : Mapping) :
  Design.latest (l ++ [(sid, sm)]) id m ↔
  (id = sid ∧ m = sm) ∨ (Design.latest l id m ∧ ¬ Design.samePair sm m).
Proof.
  unfold Design.latest. split.
  - intros (l1 & l2 & Heq & Hlater).
    destruct l2 as [|e l2 _] using rev_ind.
    + apply app_inj_tail in Heq as [_ [= -> ->]]. by left.
    + rewrite app_comm_cons, app_assoc in Heq.
      apply app_inj_tail in Heq as [-> <-]. right. split.
      * exists l1, l2. split; [done|]. intros e He. apply Hlater.
        rewrite elem_of_app. by left.
      * apply (Hlater (sid, sm)). rewrite elem_of_app, list_elem_of_singleton. by right.
  - intros [[-> ->] | [(l1 & l2 & -> & Hlater) Hnew]].
    + exists l, []. split; [done|]. intros e He. by apply elem_of_nil in He.
    + exists l1, (l2 ++ [(sid, sm)]). split; [by rewrite <- app_assoc|].
      intros e He. rewrite elem_of_app, list_elem_of_singleton in He.
      destruct He as [He | ->]; [by apply Hlater | exact Hnew].
Qed.

Lemma latest_elem (l : list (string * Mapping)) (id : string) (m : Mapping) :
  Design.latest l id m → id ∈ l.*1.
Proof.
  intros (l1 & l2 & -> & _). rewrite fmap_app, elem_of_app. right. simpl. left.
Qed.

(** What the loop of [loadMappings] has built after the entries [parsed]:
    [mappings] holds the latest entry of each controller, and [seen] sends
    the key of each of them to its parameter. *)
Lemma loadEntry_invariant (parsed : list (string * Mapping)) :
  NoDup parsed.*1 →
  (∀ id m, (foldl loadEntry (∅, ∅) parsed).2 !! id = Some m ↔ Design.latest parsed id m)
  ∧ (∀ k id, (foldl loadEntry (∅, ∅) parsed).1 !! k = Some id ↔
             ∃ m, (foldl loadEntry (∅, ∅) parsed).2 !! id = Some m ∧ key m = k).
Proof.
  induction parsed as [|[sid sm] l IH] using rev_ind; intros Hnodup.
  - simpl. split.
    + intros id m. rewrite lookup_empty. split; [done|].
      intros (l1 & l2 & Heq & _). by destruct l1.
    + intros k id. rewrite lookup_empty. split; [done|].
      intros (m & Hm & _). by rewrite lookup_empty in Hm.
  - rewrite fmap_app in Hnodup. apply NoDup_app in Hnodup as (Hnodup & Hfresh & _).
    destruct (IH Hnodup) as [B A]. clear IH.
    rewrite foldl_snoc.
    destruct (foldl loadEntry (∅, ∅) l) as [seen M]. simpl in A, B.
    assert (Hsid : M !! sid = None).
    { destruct (M !! sid) as [m|] eqn:E; [|done]. exfalso.
      apply B, latest_elem in E. apply (Hfresh sid E). simpl. left. }
    unfold loadEntry.
    set (Mmid := match seen !! key sm with
                 | Some older => delete older M
                 | None => M
                 end).
    assert (C : ∀ id m, Mmid !! id = Some m ↔ M !! id = Some m ∧ key m ≠ key sm).
    { intros id m. unfold Mmid. destruct (seen !! key sm) as [older|] eqn:Eseen.
      - rewrite lookup_delete_Some. split.
        + intros [Hne Hm]. split; [done|]. intros Hk.
          assert (seen !! key sm = Some id) by (apply A; by exists m). congruence.
        + intros [Hm Hk]. split; [|done]. intros ->.
          apply A in Eseen as (m' & Hm' & Hk'). congruence.
      - split; [|by intros [? _]]. intros Hm. split; [done|]. intros Hk.
        assert (seen !! key sm = Some id) by (apply A; by exists m). congruence. }
    cbn [fst snd]. split.
    + intros id m. rewrite latest_snoc. destruct (decide (id = sid)) as [->|Hne].
      * rewrite lookup_insert_eq. split.
        -- intros [= ->]. by left.
        -- intros [[_ ->] | [Hl _]]; [done|]. exfalso.
           apply latest_elem in Hl. apply (Hfresh sid Hl). simpl. left.
      * rewrite lookup_insert_ne by done. rewrite C, B, key_samePair. split.
        -- intros [Hl Hk]. right. split; [done|]. intros [? ?]. apply Hk. by split.
        -- intros [[? _] | [Hl Hk]]; [done|]. split; [done|].
           intros [? ?]. apply Hk. by split.
    + intros k id. destruct (decide (k = key sm)) as [->|Hk].
      * rewrite lookup_insert_eq. split.
        -- intros [= <-]. exists sm. by rewrite lookup_insert_eq.
        -- intros (m & Hm & Hkm). destruct (decide (id = sid)) as [->|Hne]; [done|].
           rewrite lookup_insert_ne in Hm by done. apply C in Hm as [_ Hm]. done.
      * rewrite lookup_insert_ne by done. rewrite A. split.
        -- intros (m & Hm & Hkm). exists m. split; [|done].
           assert (id ≠ sid) by congruence.
           rewrite lookup_insert_ne by done. apply C. split; congruence.
        -- intros (m & Hm & Hkm). exists m. split; [|done].
           destruct (decide (id = sid)) as [->|Hne].
           ++ rewrite lookup_insert_eq in Hm. congruence.
           ++ rewrite lookup_insert_ne in Hm by done. by apply C in Hm as [Hm _].
Qed.


(** Whatever the entries, [seen] knows the parameter of every mapping kept. *)
Lemma loadEntry_seen (parsed : list (string * Mapping)) :
  ∀ id m, (foldl loadEntry (∅, ∅) parsed).2 !! id = Some m →
          (foldl loadEntry (∅, ∅) parsed).1 !! key m = Some id.
Proof.
  induction parsed as [|[sid sm] l IH] using rev_ind; intros id m.
  - simpl. by rewrite lookup_empty.
  - rewrite foldl_snoc. destruct (foldl loadEntry (∅, ∅) l) as [seen M].
    simpl in IH. unfold loadEntry. cbn [fst snd].
    destruct (decide (id = sid)) as [->|Hne].
    + rewrite lookup_insert_eq. intros [= ->]. by rewrite lookup_insert_eq.
    + rewrite lookup_insert_ne by done. intros Hm.
      assert (HM : M !! id = Some m).
      { destruct (seen !! key sm); [|done]. by apply lookup_delete_Some in Hm as [_ ?]. }
      destruct (decide (key sm = key m)) as [Hk|Hk].
      * exfalso. rewrite Hk, (IH id m HM) in Hm. by rewrite lookup_delete_eq in Hm.
      * rewrite lookup_insert_ne by done. by apply IH.
Qed.

Lemma loadMappings_unique (m : Manager) :
  unique (mappings m) → unique (mappings (loadMappings m)).
Proof.
  intros Hu. unfold loadMappings. destruct (localStorage m) as [| |parsed]; simpl.
  - exact Hu.
  - intros id1 id2 m1 m2 H. by rewrite lookup_empty in H.
  - intros id1 id2 m1 m2 H1 H2 Hch Hcc.
    apply loadEntry_seen in H1, H2.
    assert (Hk : key m1 = key m2) by (apply key_samePair; by split).
    rewrite Hk in H1. congruence.
Qed.

(** ** Assigning *)

Lemma removal_lookup (sliderId : string) (channel0 cc0 : N)
  (entries : list (string * Mapping)) :
  ∀ (acc : gmap string Mapping) i x,
    foldl (λ acc entry,
             if clashes sliderId channel0 cc0 entry then delete entry.1 acc else acc)
          acc entries !! i = Some x ↔
    acc !! i = Some x
    ∧ ∀ entry, entry ∈ entries → clashes sliderId channel0 cc0 entry = true → entry.1 ≠ i.
Proof.
  induction entries as [|e rest IH]; intros acc i x; simpl.
  - split; [|by intros [? _]]. intros H. split; [done|].
    intros entry He. by apply elem_of_nil in He.
  - rewrite IH. split.
    + intros [Hacc Hrest]. destruct (clashes sliderId channel0 cc0 e) eqn:E.
      * apply lookup_delete_Some in Hacc as [Hne Hacc]. split; [done|].
        intros entry He Hc. apply elem_of_cons in He as [->|He]; [done | by apply Hrest].
      * split; [done|]. intros entry He Hc.
        apply elem_of_cons in He as [->|He]; [congruence | by apply Hrest].
    + intros [Hacc Hall]. split.
      * destruct (clashes sliderId channel0 cc0 e) eqn:E; [|done].
        apply lookup_delete_Some. split; [|done]. apply Hall; [left | done].
      * intros entry He. apply Hall. by right.
Qed.

Lemma clashes_spec (sliderId : string) (channel0 cc0 : N) (id : string) (m : Mapping) :
  clashes sliderId channel0 cc0 (id, m) = true ↔
  cc m = cc0 ∧ channel m = channel0 ∧ id ≠ sliderId.
Proof.
  unfold clashes. simpl. rewrite !andb_true_iff, !N.eqb_eq, negb_true_iff.
  rewrite <- not_true_iff_false, String.eqb_eq. tauto.
Qed.

Lemma assignMapping_lookup (sliderId : string) (channel0 cc0 : N) (m : Manager) :
  mappings (assignMapping sliderId channel0 cc0 m) !! sliderId
    = Some (mkMapping channel0 cc0)
  ∧ ∀ id x, id ≠ sliderId →
      (mappings (assignMapping sliderId channel0 cc0 m) !! id = Some x ↔
       mappings m !! id = Some x ∧ ¬ (channel x = channel0 ∧ cc x = cc0)).
Proof.
  unfold assignMapping. simpl. split; [by rewrite lookup_insert_eq|].
  intros id x Hne. rewrite lookup_insert_ne by done. rewrite removal_lookup. split.
  - intros [Hx Hall]. split; [done|]. intros [Hch Hcc].
    apply (Hall (id, x)); [by apply elem_of_map_to_list | by apply clashes_spec | done].
  - intros [Hx Hpair]. split; [done|]. intros [j y] Hin Hc Hj. simpl in Hj. subst j.
    apply elem_of_map_to_list in Hin. apply clashes_spec in Hc as (? & ? & _).
    apply Hpair. split; congruence.
Qed.

Lemma assignMapping_unique (sliderId : string) (channel0 cc0 : N) (m : Manager) :
  unique (mappings m) → unique (mappings (assignMapping sliderId channel0 cc0 m)).
Proof.
  intros Hu id1 id2 m1 m2 H1 H2 Hch Hcc.
  destruct (assignMapping_lookup sliderId channel0 cc0 m) as [Hnew Hold].
  destruct (decide (id1 = sliderId)) as [->|Hne1];
    destruct (decide (id2 = sliderId)) as [->|Hne2]; [done| | |].
  - rewrite Hnew in H1. injection H1 as <-.
    apply Hold in H2 as [_ H2]; [|done]. exfalso. apply H2. by split.
  - rewrite Hnew in H2. injection H2 as <-.
    apply Hold in H1 as [_ H1]; [|done]. exfalso. apply H1. by split.
  - apply Hold in H1 as [H1 _]; [|done]. apply Hold in H2 as [H2 _]; [|done].
    by apply (Hu id1 id2 m1 m2).
Qed.

Lemma call_unique (m : Manager) (c : Call) :
  unique (mappings m) → unique (mappings (call m c)).
Proof.
  intros Hu. destruct c as [sliderId channel0 cc0|sliderId| |sliderId| |status d1 d2|];
    simpl; try exact Hu.
  - by apply assignMapping_unique.
  - intros id1 id2 m1 m2 H1 H2.
    apply lookup_delete_Some in H1 as [_ H1]. apply lookup_delete_Some in H2 as [_ H2].
    by apply Hu.
  - intros id1 id2 m1 m2 H. by rewrite lookup_empty in H.
  - unfold handleMessage. destruct (negb _); [exact Hu|].
    destruct (learning m); [by apply assignMapping_unique | exact Hu].
  - by apply loadMappings_unique.
Qed.



(** The stored set of the design document's example: two parameters on
    channel 1, controller 20; only the later one is kept. *)
Lemma load_example :
  mappings (constructor (Entries [("density"%string, mkMapping 1 20);
                                  ("bpm"%string, mkMapping 2 7);
                                  ("brightness"%string, mkMapping 1 20)]))
  = {[ "bpm"%string := mkMapping 2 7; "brightness"%string := mkMapping 1 20 ]}.
Proof. by vm_compute. Qed.

(** ** Saving and loading again *)

Lemma reload_saved (mp : gmap string Mapping) :
  unique mp → (foldl loadEntry (∅, ∅) (map_to_list mp)).2 = mp.
Proof.
  intros Hu. apply map_eq. intros id. apply option_eq. intros x.
  destruct (loadEntry_invariant (map_to_list mp) (NoDup_fst_map_to_list mp)) as [Hl _].
  rewrite Hl. split.
  - intros (l1 & l2 & Heq & _). apply elem_of_map_to_list. rewrite Heq.
    apply elem_of_app. right. by left.
  - intros Hx. apply elem_of_map_to_list, list_elem_of_split in Hx as (l1 & l2 & Heq).
    exists l1, l2. split; [done|]. intros [id' x'] He [Hch Hcc]. simpl in *.
    assert (Hx' : mp !! id' = Some x').
    { apply elem_of_map_to_list. rewrite Heq. apply elem_of_app. right. by right. }
    assert (Hx : mp !! id = Some x).
    { apply elem_of_map_to_list. rewrite Heq. apply elem_of_app. right. by left. }
    assert (id' = id) by exact (Hu id' id x' x Hx' Hx Hch Hcc). subst id'.
    pose proof (NoDup_fst_map_to_list mp) as Hnd. rewrite Heq, fmap_app in Hnd.
    apply NoDup_app in Hnd as (_ & _ & Hnd). rewrite fmap_cons in Hnd.
    apply NoDup_cons in Hnd as [Hnin _]. apply Hnin.
    apply list_elem_of_fmap. by exists (id, x').
Qed.

Lemma call_reloads (m : Manager) (c : Call) :
  unique (mappings m) →
  mappings (constructor (localStorage m)) = mappings m →
  mappings (constructor (localStorage (call m c))) = mappings (call m c).
Proof.
  intros Hu Hs. pose proof (call_unique m c Hu) as Hu'.
  destruct c as [sliderId channel0 cc0|sliderId| |sliderId| |status d1 d2|];
    simpl in *; try exact Hs.
  - by apply reload_saved.
  - by apply reload_saved.
  - by apply reload_saved.
  - unfold handleMessage in *. destruct (negb _); [exact Hs|].
    destruct (learning m); [|exact Hs]. by apply reload_saved.
  - unfold constructor, loadMappings in *. simpl in *.
    destruct (localStorage m) as [| |parsed] eqn:E; simpl; rewrite ?E; done.
Qed.

(** Whatever is stored and whatever calls follow, a manager constructed
    again over the storage the calls left behind holds the same mappings:
    the mappings survive a reload of the page. *)
Theorem mappings_survive_reload (stored : Stored) (calls : list Call) :
  let m := foldl call (constructor stored) calls in
  mappings (constructor (localStorage m)) = mappings m.
Proof.
  assert (H : ∀ m, unique (mappings m) →
                mappings (constructor (localStorage m)) = mappings m →
                mappings (constructor (localStorage (foldl call m calls)))
                = mappings (foldl call m calls)).
  { induction calls as [|c r IH]; intros m Hu Hs; [exact Hs|].
    simpl. apply IH; [by apply call_unique | by apply call_reloads]. }
  apply H.
  - apply loadMappings_unique. simpl. intros id1 id2 m1 m2 H1.
    by rewrite lookup_empty in H1.
  - unfold constructor, loadMappings. simpl. by destruct stored.
Qed.

(** ** Dispatch of controller messages *)

Lemma find_reported (mp : gmap string Mapping) (channel0 cc0 : N) (entry : string * Mapping) :
  List.find (λ entry, (cc entry.2 =? cc0)%N && (channel entry.2 =? channel0)%N)
            (map_to_list mp) = Some entry →
  mp !! entry.1 = Some (mkMapping channel0 cc0).
Proof.
  intros H. apply find_some in H as [Hin Hf].
  apply andb_true_iff in Hf as [Hcc Hch]. apply N.eqb_eq in Hcc, Hch.
  destruct entry as [id [ch c]]. simpl in *. subst.
  by apply elem_of_map_to_list, list_elem_of_In.
Qed.

Lemma find_mapped (mp : gmap string Mapping) (channel0 cc0 : N) (id : string) :
  (∀ id' x, mp !! id' = Some x → channel x = channel0 → cc x = cc0 → id' = id) →
  mp !! id = Some (mkMapping channel0 cc0) →
  List.find (λ entry, (cc entry.2 =? cc0)%N && (channel entry.2 =? channel0)%N)
            (map_to_list mp) = Some (id, mkMapping channel0 cc0).
Proof.
  intros Hu Hid.
  destruct (List.find _ (map_to_list mp)) as [[id' x]|] eqn:E.
  - pose proof (find_reported mp channel0 cc0 _ E) as Hx. simpl in Hx.
    assert (id' = id) by (apply (Hu id' _ Hx); done). subst id'.
    apply find_some in E as [Hin _].
    apply list_elem_of_In, elem_of_map_to_list in Hin. congruence.
  - apply elem_of_map_to_list, list_elem_of_In in Hid.
    pose proof (find_none _ _ E _ Hid) as Hf. simpl in Hf.
    by rewrite !N.eqb_refl in Hf.
Qed.


(** A message changes the manager only in learn mode.  The parameter a
    message reports is mapped to the controller and channel of the message,
    the value reported is the third byte, and the message is a Control
    Change received outside learn mode.  Conversely, when no two parameters
    share a controller, a Control Change outside learn mode reports the
    parameter mapped to its controller and channel. *)
Theorem controller_dispatch_exact (status data1 data2 : N) (m : Manager) :
  (learning m = None → (handleMessage status data1 data2 m).1 = m)
  ∧ (∀ id v, (handleMessage status data1 data2 m).2 = Some (id, v) →
       v = data2 ∧ learning m = None ∧ N.land status 240 = 176%N
       ∧ mappings m !! id = Some (mkMapping (N.land status 15) data1))
  ∧ (unique (mappings m) → learning m = None → N.land status 240 = 176%N →
     ∀ id, mappings m !! id = Some (mkMapping (N.land status 15) data1) →
           (handleMessage status data1 data2 m).2 = Some (id, data2)).
Proof.
  unfold handleMessage. split_and!.
  - intros Hl. destruct (negb _); [done|]. by rewrite Hl.
  - intros id v H. destruct (N.land status 240 =? 176)%N eqn:E; simpl in H; [|done].
    apply N.eqb_eq in E. destruct (learning m); [done|]. simpl in H.
    destruct (List.find _ _) as [entry|] eqn:F; [|done].
    injection H as <- <-. split_and!; try done.
    by apply find_reported in F.
  - intros Hu Hl Hs id Hid. rewrite Hs, Hl. simpl.
    rewrite (find_mapped (mappings m) (N.land status 15) data1 id); [done| |done].
    intros id' x Hx Hch Hcc. by apply (Hu id' id x _ Hx Hid).
Qed.

Lemma controller_dispatch_exact_witness :
  (handleMessage 177 20 64
     (mkManager {[ "density"%string := mkMapping 1 20 ]} None Absent)).2
  = Some ("density"%string, 64%N).
Proof.
  refine (proj2 (proj2 (controller_dispatch_exact 177 20 64
            (mkManager {[ "density"%string := mkMapping 1 20 ]} None Absent)))
            _ eq_refl eq_refl "density"%string _).
  - intros id1 id2 m1 m2 H1 H2 _ _. simpl in H1, H2.
    apply lookup_singleton_Some in H1 as [<- _].
    by apply lookup_singleton_Some in H2 as [<- _].
  - by vm_compute.
Defined.

(** ** MIDI learn *)



End MidiManagerFacts.
